(** * The WebAssembly scanner allocator, the tree-cursor step type and the
      scanner ABI of the vendored tree-sitter runtime.

    Sources embedded here:
    - [vendor/tree-sitter/src/wasm/stdlib.c]: the bump allocator that backs
      external scanners compiled to wasm32;
    - [vendor/tree-sitter/src/tree_cursor.h]: the cursor entry, the cursor and
      the [TreeCursorStep] enumeration;
    - [vendor/tree-sitter/src/wasm_store.h]: the host-side declarations of the
      calls into a scanner compiled to wasm.

    The allocator is compiled for wasm32: [size_t], [uintptr_t] and every
    pointer are 32-bit unsigned integers, [ptrdiff_t] is a 32-bit signed
    integer.  They are modelled as [Z] with the wrap-around written out. *)

From stdpp Require Import gmap strings list fin_maps.
From Stdlib Require Import ZArith Lia.

Local Open Scope Z_scope.
Set Warnings "-register-all".

(** ** Machine integers *)

Module Word.

Definition modulus : Z := 2 ^ 32.

(** Reduction of an integer to [size_t] / [uintptr_t]. *)
Definition wrap (z : Z) : Z := z mod modulus.

(** Reinterpretation of a 32-bit pattern as [ptrdiff_t]. *)
Definition signed (z : Z) : Z :=
  let u := wrap z in if u <? 2 ^ 31 then u else u - modulus.

(** A value of type [size_t] (or a pointer). *)
Definition in_range (z : Z) : Prop := 0 <= z < modulus.

Definition SIZE_MAX : Z := modulus - 1.

End Word.

Import Word.

(** ** Constants of [stdlib.c] *)

Definition PAGESIZE : Z := 0x10000.
Definition MAX_HEAP_SIZE : Z := 4 * 1024 * 1024.
Definition NULL : Z := 0.

(** [sizeof(Region)]: one [size_t], the flexible [data] member has size 0. *)
Definition sizeof_Region : Z := 4.

(** ** The state of a scanner module

    The three statics of [stdlib.c], and the linear memory of the module:
    its current size in pages, the maximum the engine lets it grow to, and
    its bytes.  The statics are C objects of their own; they are kept apart
    from the byte map, which holds the heap. *)

Record State : Type := mkState {
  heap_end : Z;
  heap_start : Z;
  next : Z;
  mem_pages : Z;
  mem_max_pages : Z;
  mem : gmap Z Z;
}.

Definition set_heap_end (v : Z) (s : State) : State :=
  mkState v (heap_start s) (next s) (mem_pages s) (mem_max_pages s) (mem s).
Definition set_heap_start (v : Z) (s : State) : State :=
  mkState (heap_end s) v (next s) (mem_pages s) (mem_max_pages s) (mem s).
Definition set_next (v : Z) (s : State) : State :=
  mkState (heap_end s) (heap_start s) v (mem_pages s) (mem_max_pages s) (mem s).
Definition set_mem_pages (v : Z) (s : State) : State :=
  mkState (heap_end s) (heap_start s) (next s) v (mem_max_pages s) (mem s).
Definition set_mem (m : gmap Z Z) (s : State) : State :=
  mkState (heap_end s) (heap_start s) (next s) (mem_pages s) (mem_max_pages s) m.

(** Size of the linear memory in bytes (not wrapped: 65536 pages are 4 GiB). *)
Definition mem_bytes (s : State) : Z := mem_pages s * PAGESIZE.

(** The byte stored at an address; the map is sparse, a missing entry reads
    as zero. *)
Definition byte_at (m : gmap Z Z) (a : Z) : Z := default 0 (m !! a) mod 256.

(** A state whose fields are values of their C types, in a memory that
    respects the wasm32 limit of 65536 pages. *)
Record wf (s : State) : Prop := mkWf {
  wf_heap_end : in_range (heap_end s);
  wf_heap_start : in_range (heap_start s);
  wf_next : in_range (next s);
  wf_pages : 0 <= mem_pages s <= mem_max_pages s;
  wf_max : mem_max_pages s <= 65536;
}.

(** ** A state monad with traps

    A computation either returns a value and a new state, or traps: an
    access outside the linear memory aborts the call. *)

Inductive Res (A : Type) : Type :=
| Ret (v : A) (s : State)
| Trap.
Arguments Ret {A} v s.
Arguments Trap {A}.

Definition M (A : Type) : Type := State -> Res A.

Definition ret {A} (v : A) : M A := fun s => Ret v s.
Definition bind {A B} (c : M A) (k : A -> M B) : M B :=
  fun s => match c s with
           | Ret v s' => k v s'
           | Trap => Trap
           end.
Definition gets {A} (f : State -> A) : M A := fun s => Ret (f s) s.
Definition modify (f : State -> State) : M unit := fun s => Ret tt (f s).

#[global] Instance M_ret : MRet M := @ret.
#[global] Instance M_bind : MBind M := fun A B k c => bind c k.

(** ** Linear memory accesses *)

(** Little-endian 32-bit store of [v] at [a]; traps outside the memory. *)
Definition write32 (a v : Z) (m : gmap Z Z) : gmap Z Z :=
  <[a + 3 := (v / 16777216) mod 256]>
    (<[a + 2 := (v / 65536) mod 256]>
       (<[a + 1 := (v / 256) mod 256]>
          (<[a := v mod 256]> m))).

Definition read32 (a : Z) (m : gmap Z Z) : Z :=
  byte_at m a + 256 * byte_at m (a + 1) + 65536 * byte_at m (a + 2)
  + 16777216 * byte_at m (a + 3).

Definition in_bounds (a len : Z) (s : State) : bool :=
  (0 <=? a) && (a + len <=? mem_bytes s).

Definition store32 (a v : Z) : M unit := fun s =>
  if in_bounds a 4 s then Ret tt (set_mem (write32 a v (mem s)) s) else Trap.

Definition load32 (a : Z) : M Z := fun s =>
  if in_bounds a 4 s then Ret (read32 a (mem s)) s else Trap.

(** [memset(dst, c, n)] of the C library: [n] bytes from [dst] are set to
    [c]; it traps when the range leaves the memory. *)
Definition fill (dst c : Z) (n : Z) (m : gmap Z Z) : gmap Z Z :=
  foldr (fun a acc => <[a := c mod 256]> acc) m (seqZ dst n).

Definition memset (dst c n : Z) : M unit := fun s =>
  if in_bounds dst n s then Ret tt (set_mem (fill dst c n (mem s)) s) else Trap.

(** [memcpy(dst, src, n)] of the C library: the [n] source bytes are read
    from the memory as it is before the call; it traps when either range
    leaves the memory. *)
Definition copy (dst src n : Z) (m : gmap Z Z) : gmap Z Z :=
  foldr (fun i acc => <[dst + i := byte_at m (src + i)]> acc) m (seqZ 0 n).

Definition memcpy (dst src n : Z) : M unit := fun s =>
  if in_bounds dst n s && in_bounds src n s
  then Ret tt (set_mem (copy dst src n (mem s)) s) else Trap.

(** [__builtin_wasm_memory_size(0)]: the current size in pages. *)
Definition wasm_memory_size : M Z := gets mem_pages.

(** [__builtin_wasm_memory_grow(0, delta)]: grows the memory by [delta]
    pages and returns the previous size, or returns [SIZE_MAX] and leaves
    the memory as it is when the maximum would be exceeded. *)
Definition wasm_memory_grow (delta : Z) : M Z := fun s =>
  if mem_pages s + delta <=? mem_max_pages s
  then Ret (mem_pages s) (set_mem_pages (mem_pages s + delta) s)
  else Ret SIZE_MAX s.

(** ** The functions of [stdlib.c] *)

(** [region_for_ptr]: [((Region * )ptr) - 1]. *)
Definition region_for_ptr (ptr : Z) : Z := wrap (ptr - sizeof_Region).

(** [&self->data]: the payload starts right after the [size] field. *)
Definition region_data (self : Z) : Z := wrap (self + sizeof_Region).

(** [region_after]: the payload end, rounded up to a multiple of 4. *)
Definition region_after (self len : Z) : Z :=
  let address := wrap (region_data self + len) in
  Z.land (wrap (address + 3)) (wrap (Z.lnot 3)).

(** [get_heap_end]: the memory size in bytes, as a pointer. *)
Definition get_heap_end : M Z :=
  pages ← wasm_memory_size; ret (wrap (pages * PAGESIZE)).

(** [grow_heap]: asks for [(size - 1) / PAGESIZE + 1] more pages. *)
Definition new_page_count (size : Z) : Z :=
  wrap (wrap (size - 1) / PAGESIZE + 1).

Definition grow_heap (size : Z) : M bool :=
  r ← wasm_memory_grow (new_page_count size);
  ret (negb (r =? SIZE_MAX)).

(** [reset_heap]: clear out the heap, and move it to the given address. *)
Definition reset_heap (new_heap_start : Z) : M unit :=
  modify (set_heap_start new_heap_start);;
  modify (set_next new_heap_start);;
  e ← get_heap_end;
  modify (set_heap_end e).

(** [(char * )a - (char * )b], a [ptrdiff_t]. *)
Definition ptrdiff (a b : Z) : Z := signed (a - b).

(** [malloc].  The first phase decides whether the request is served (the
    two early [return NULL] of the source), the second one writes the header
    and bumps [next]. *)
Definition malloc_reserve (size region_end : Z) : M bool :=
  he ← gets heap_end;
  if he <? region_end then
    hs ← gets heap_start;
    if MAX_HEAP_SIZE <? ptrdiff region_end hs then ret false
    else
      grown ← grow_heap size;
      if negb grown then ret false
      else e ← get_heap_end; modify (set_heap_end e);; ret true
  else ret true.

Definition malloc (size : Z) : M Z :=
  nxt ← gets next;
  let region_end := region_after nxt size in
  ok ← malloc_reserve size region_end;
  if negb ok then ret NULL
  else
    nxt ← gets next;
    let result := region_data nxt in
    store32 nxt size;;
    modify (set_next region_end);;
    ret result.

(** [free]. *)
Definition free (ptr : Z) : M unit :=
  if ptr =? NULL then ret tt
  else
    let region := region_for_ptr ptr in
    size ← load32 region;
    let region_end := region_after region size in
    nxt ← gets next;
    if region_end =? nxt then modify (set_next region) else ret tt.

(** [calloc]: the product is a [size_t] product. *)
Definition calloc (count size : Z) : M Z :=
  result ← malloc (wrap (count * size));
  memset result 0 (wrap (count * size));;
  ret result.

(** [realloc]. *)
Definition realloc (ptr new_size : Z) : M Z :=
  if ptr =? NULL then malloc new_size
  else
    let region := region_for_ptr ptr in
    size ← load32 region;
    let region_end := region_after region size in
    nxt ← gets next;
    if region_end =? nxt then
      modify (set_next region);;
      malloc new_size
    else
      result ← malloc new_size;
      size' ← load32 region;
      memcpy result (region_data region) size';;
      ret result.

(** A fresh module: [pages] pages of zeroed memory, statics still [NULL]. *)
Definition fresh (pages max_pages : Z) : State :=
  mkState NULL NULL NULL pages max_pages ∅.

Definition state_of {A} (r : Res A) (d : State) : State :=
  match r with Ret _ s => s | Trap => d end.

(** The value a call returned ([NULL] for a trap). *)
Definition value_of (r : Res Z) : Z :=
  match r with Ret v _ => v | Trap => NULL end.

(** The module right after instantiation: the memory as [fresh] makes it,
    and the heap reset to start at [a]. *)
Definition module_at (a pages max_pages : Z) : State :=
  state_of (reset_heap a (fresh pages max_pages)) (fresh pages max_pages).

(** ** Sequences of allocator calls

    A client of the allocator: each call passes sizes, and pointers that are
    either [NULL] or the result of an earlier allocation call of the same
    run (numbered from 0 in the order they were returned). *)

Inductive arg : Type :=
| ANull
| AResult (i : nat).

Inductive call : Type :=
| CMalloc (size : Z)
| CCalloc (count size : Z)
| CRealloc (ptr : arg) (new_size : Z)
| CFree (ptr : arg).

Definition arg_value (results : list Z) (a : arg) : Z :=
  match a with
  | ANull => NULL
  | AResult i => default NULL (results !! i)
  end.

Definition do_call (c : call) (results : list Z) : M (list Z) :=
  match c with
  | CMalloc size => p ← malloc size; ret (results ++ [p])
  | CCalloc count size => p ← calloc count size; ret (results ++ [p])
  | CRealloc a n => p ← realloc (arg_value results a) n; ret (results ++ [p])
  | CFree a => free (arg_value results a);; ret results
  end.

(** Runs the calls in order.  A trap ends the run: the result keeps the
    pointers returned and the state reached before the trapping call, and
    the flag tells that the run was cut short. *)
Fixpoint run (cs : list call) (results : list Z) (s : State)
  : list Z * State * bool :=
  match cs with
  | [] => (results, s, false)
  | c :: cs' =>
      match do_call c results s with
      | Ret results' s' => run cs' results' s'
      | Trap => (results, s, true)
      end
  end.

(** The state a run ends in, and the pointers it returned. *)
Definition final_state (cs : list call) (s : State) : State := (run cs [] s).1.2.
Definition returned (cs : list call) (s : State) : list Z := (run cs [] s).1.1.

(** Sample runs, in a memory of one page (of at most 64) whose heap
    starts at 1000. *)
Definition one_block : State := final_state [CMalloc 8] (module_at 1000 1 64).
Definition two_blocks : State :=
  final_state [CMalloc 8; CMalloc 16] (module_at 1000 1 64).
Definition reset_two_blocks : State :=
  state_of (reset_heap 1000 two_blocks) two_blocks.
Definition full_page : State := final_state [CMalloc 65532] (module_at 0 1 64).

(** A module whose one block, allocated with the heap at 0, made the
    memory grow from 1 page to 65. *)
Definition grown_module : State :=
  final_state [CMalloc 4194296] (module_at 0 1 128).

(** A module of one page that allocated one block of 2028 bytes with the
    heap at 2004, and a run that resizes the older of two blocks. *)
Definition stale_module : State :=
  final_state [CMalloc 2028] (module_at 2004 1 64).
Definition resize_older : list call :=
  [CMalloc 2000; CMalloc 24; CRealloc (AResult 0) (5 * 1024 * 1024);
   CFree (AResult 0); CMalloc 8].
Definition sample_frees : list call :=
  [CMalloc 10; CCalloc 2 3; CFree (AResult 1); CMalloc 7; CFree (AResult 0)].

(** [malloc] called on each size in turn; the pointers in call order. *)
Fixpoint mallocs (sizes : list Z) : M (list Z) :=
  match sizes with
  | [] => ret []
  | size :: sizes' => p ← malloc size; ps ← mallocs sizes'; ret (p :: ps)
  end.

(** Where a run of served requests puts its blocks when the first region
    starts at [nxt]: each payload follows its header, each region follows
    the one before. *)
Fixpoint layout (nxt : Z) (sizes : list Z) : list Z :=
  match sizes with
  | [] => []
  | size :: sizes' => region_data nxt :: layout (region_after nxt size) sizes'
  end.

(** [free] called on each pointer in turn. *)
Fixpoint frees (ptrs : list Z) : M unit :=
  match ptrs with
  | [] => ret tt
  | p :: ptrs' => free p;; frees ptrs'
  end.

Definition aligned (z : Z) : Prop := z mod 4 = 0.

(** The region of [size] payload bytes that starts at [self] ends without
    leaving the 32-bit address space. *)
Definition no_wrap (self size : Z) : Prop :=
  0 <= size /\ self + sizeof_Region + size + 3 < modulus.


(** Where the region of [size] payload bytes at [base] ends, padding
    included, as an integer: no reduction to 32 bits. *)
Definition region_end (base size : Z) : Z :=
  (base + sizeof_Region + size + 3) / 4 * 4.


(** The new region either ends within the current heap, or ends within
    [MAX_HEAP_SIZE] of [heap_start] and the engine grants the pages
    [grow_heap] asks for. *)
Definition space_available (s : State) (base size : Z) : Prop :=
  region_after base size <= heap_end s \/
  (ptrdiff (region_after base size) (heap_start s) <= MAX_HEAP_SIZE /\
   mem_pages s + new_page_count size <= mem_max_pages s).

(** The state after [grow_heap size] succeeded and [heap_end] was read
    again. *)
Definition grown (size : Z) (s : State) : State :=
  set_heap_end (wrap ((mem_pages s + new_page_count size) * PAGESIZE))
    (set_mem_pages (mem_pages s + new_page_count size) s).

(** The second half of [malloc]: the header is stored at [next], [next]
    moves to [region_end], the payload address is returned. *)
Definition commit (size region_end : Z) (s : State) : Res Z :=
  if in_bounds (next s) 4 s
  then Ret (region_data (next s))
           (set_next region_end (set_mem (write32 (next s) size (mem s)) s))
  else Trap.

(** What a [malloc] that served the request did: the block is placed at the
    previous [next], with its size in the header; the memory may have
    grown. *)
Record served (size : Z) (s : State) (p : Z) (s' : State) : Prop := mkServed {
  sv_ptr : p = region_data (next s);
  sv_next : next s' = region_after (next s) size;
  sv_mem : mem s' = write32 (next s) size (mem s);
  sv_start : heap_start s' = heap_start s;
  sv_max : mem_max_pages s' = mem_max_pages s;
  sv_pages : mem_pages s <= mem_pages s';
  sv_bounds : in_bounds (next s) 4 s' = true;
  sv_wf : wf s';
}.

(** A run of [malloc] calls that each return a pointer other than [NULL],
    for sizes that keep the region inside the address space; the pointers
    are listed in call order. *)
Inductive alloc_trace : State -> list Z -> State -> Prop :=
| alloc_nil s : alloc_trace s [] s
| alloc_cons s size p s1 ps s2 :
    no_wrap (next s) size ->
    malloc size s = Ret p s1 ->
    p ≠ NULL ->
    alloc_trace s1 ps s2 ->
    alloc_trace s (p :: ps) s2.

(** Two states with the same statics and the same memory size; the bytes
    of the memory may differ. *)
Definition same_allocator (s s' : State) : Prop :=
  heap_end s = heap_end s' /\ heap_start s = heap_start s' /\
  next s = next s' /\ mem_pages s = mem_pages s' /\
  mem_max_pages s = mem_max_pages s'.

(** The two memories hold the same header below the pointer [p]. *)
Definition same_header (s s' : State) (p : Z) : Prop :=
  p ≠ NULL ->
  forall i, 0 <= i < 4 ->
    byte_at (mem s) (region_for_ptr p + i) = byte_at (mem s') (region_for_ptr p + i).

Definition is_realloc (c : call) : bool :=
  match c with
  | CRealloc _ _ => true
  | _ => false
  end.

(** A sequence of [malloc], [calloc] and [free] calls. *)
Definition no_realloc (cs : list call) : bool :=
  forallb (fun c => negb (is_realloc c)) cs.

(** What two runs of the same calls keep in common when they start from
    memories with different bytes. *)
Definition same_run (results : list Z) (s s' : State) : Prop :=
  same_allocator s s' /\ in_range (next s) /\ Forall (same_header s s') results.

(** ** The tree cursor ([tree_cursor.h]) *)

Module Cursor.

(** The enumeration [TreeCursorStep], with the values C gives its
    enumerators. *)
Inductive TreeCursorStep : Type :=
| TreeCursorStepNone
| TreeCursorStepHidden
| TreeCursorStepVisible.

Definition step_value (r : TreeCursorStep) : Z :=
  match r with
  | TreeCursorStepNone => 0
  | TreeCursorStepHidden => 1
  | TreeCursorStepVisible => 2
  end.

(** Modelled from the spec: [subtree.h] is missing.  A subtree has a
    symbol, the byte length it covers, an ordered sequence of children,
    the [extra] flag, and is visible or hidden by the grammar. *)
Inductive Subtree : Type :=
  mkSubtree {
    symbol : nat;
    visible : bool;
    extra : bool;
    size : Z;
    children : list Subtree;
  }.

(** [TreeCursorEntry]; [Length] is reduced to its byte count. *)
Record TreeCursorEntry : Type := mkEntry {
  subtree : Subtree;
  position : Z;
  child_index : nat;
  structural_child_index : nat;
  descendant_index : nat;
}.

(** [TreeCursor]; the [Array] has its last element on top. *)
Record TreeCursor : Type := mkCursor {
  tree : Subtree;
  stack : list TreeCursorEntry;
  root_alias_symbol : nat;
}.

Definition set_stack (st : list TreeCursorEntry) (c : TreeCursor) : TreeCursor :=
  mkCursor (tree c) st (root_alias_symbol c).

(** [ts_tree_cursor_current_subtree]: the subtree of [array_back]. *)
Definition ts_tree_cursor_current_subtree (c : TreeCursor) : option Subtree :=
  subtree <$> last (stack c).

Fixpoint descendant_count (t : Subtree) : nat :=
  length (children t)
  + foldr (fun c acc => descendant_count c + acc)%nat 0%nat (children t).

Definition step_of (t : Subtree) : TreeCursorStep :=
  if visible t then TreeCursorStepVisible else TreeCursorStepHidden.

(** Modelled from the spec: [tree_cursor.c] is missing.  Descending to
    the first child is no move when the current node has no children;
    otherwise a frame for the first child is pushed, at the position of
    its parent, and the result tells whether the child is visible. *)
Definition ts_tree_cursor_goto_first_child_internal (c : TreeCursor)
  : TreeCursorStep * TreeCursor :=
  match last (stack c) with
  | None => (TreeCursorStepNone, c)
  | Some e =>
      match children (subtree e) with
      | [] => (TreeCursorStepNone, c)
      | child :: _ =>
          let e' := mkEntry child (position e) 0 0 (S (descendant_index e)) in
          (step_of child, set_stack (stack c ++ [e']) c)
      end
  end.

(** Modelled from the spec: [tree_cursor.c] is missing.  Advancing to the
    next sibling is no move at the root and after the last child;
    otherwise the top frame is replaced by one for the sibling, whose
    position is that of the node left plus its extent. *)
Definition ts_tree_cursor_goto_next_sibling_internal (c : TreeCursor)
  : TreeCursorStep * TreeCursor :=
  match last (stack c), last (removelast (stack c)) with
  | Some e, Some parent =>
      match children (subtree parent) !! S (child_index e) with
      | None => (TreeCursorStepNone, c)
      | Some sibling =>
          let e' := mkEntry sibling (position e + size (subtree e))
                      (S (child_index e))
                      (if extra (subtree e) then structural_child_index e
                       else S (structural_child_index e))
                      (S (descendant_index e + descendant_count (subtree e))) in
          (step_of sibling, set_stack (removelast (stack c) ++ [e']) c)
      end
  | _, _ => (TreeCursorStepNone, c)
  end.

(** The node a descent leads to: the first child of the current node.
    There is none when the current node has no children. *)
Definition first_child (c : TreeCursor) : option Subtree :=
  match last (stack c) with
  | Some e => head (children (subtree e))
  | None => None
  end.

(** The node an advance leads to: the child of the parent that follows
    the current node.  There is none at the root, and none after the last
    child. *)
Definition next_sibling (c : TreeCursor) : option Subtree :=
  match last (stack c), last (removelast (stack c)) with
  | Some e, Some parent => children (subtree parent) !! S (child_index e)
  | _, _ => None
  end.

(** The cursor moved to the node [target] names, of visibility [v]: that
    node is now the current one, on top of the frames [below], in the same
    tree, and the stack is not what it was. *)
Definition landed (target : option Subtree) (below : list TreeCursorEntry)
    (v : bool) (c c' : TreeCursor) : Prop :=
  exists t, target = Some t /\ visible t = v
    /\ ts_tree_cursor_current_subtree c' = Some t
    /\ removelast (stack c') = below
    /\ tree c' = tree c
    /\ stack c' ≠ stack c.

(** What each step result stands for, for a move to [target] that keeps
    the frames [below]. *)
Definition outcome (target : option Subtree) (below : list TreeCursorEntry)
    (c c' : TreeCursor) (r : TreeCursorStep) : Prop :=
  match r with
  | TreeCursorStepNone => target = None /\ c' = c
  | TreeCursorStepHidden => landed target below false c c'
  | TreeCursorStepVisible => landed target below true c c'
  end.

(** The result describes the call, and no other result does. *)
Definition exactly_one_outcome (target : option Subtree)
    (below : list TreeCursorEntry) (c : TreeCursor)
    (rc : TreeCursorStep * TreeCursor) : Prop :=
  outcome target below c rc.2 rc.1
  /\ forall r, outcome target below c rc.2 r -> r = rc.1.

(** A sample tree: a visible root over a hidden node, which has one
    visible leaf, and a visible leaf; cursors on the root, on its first
    child, and on its second. *)
Definition leaf (sym : nat) (len : Z) : Subtree := mkSubtree sym true false len [].
Definition hidden_node : Subtree := mkSubtree 2 false false 3 [leaf 3 3].
Definition sample_tree : Subtree := mkSubtree 1 true false 8 [hidden_node; leaf 4 5].
Definition at_root : TreeCursor := mkCursor sample_tree [mkEntry sample_tree 0 0 0 0] 0.
Definition at_first : TreeCursor := (ts_tree_cursor_goto_first_child_internal at_root).2.
Definition at_second : TreeCursor := (ts_tree_cursor_goto_next_sibling_internal at_first).2.

End Cursor.

(** ** The scanner calls of the wasm store ([wasm_store.h]) *)

Module WasmStore.

Inductive ctype : Type :=
| Tvoid
| Tbool
| Tuint32
| Tunsigned
| TStateId
| Tptr (is_const : bool) (pointee : string).

Record fundecl : Type := mkDecl {
  fn_name : string;
  fn_ret : ctype;
  fn_params : list ctype;
}.

Definition store : ctype := Tptr false "TSWasmStore".

(** The function declarations of the header, in order. *)
Definition wasm_store_h : list fundecl := [
  mkDecl "ts_wasm_store_start" Tbool
    [store; Tptr false "TSLexer"; Tptr true "TSLanguage"];
  mkDecl "ts_wasm_store_reset" Tvoid [store];
  mkDecl "ts_wasm_store_has_error" Tbool [Tptr true "TSWasmStore"];
  mkDecl "ts_wasm_store_call_lex_main" Tbool [store; TStateId];
  mkDecl "ts_wasm_store_call_lex_keyword" Tbool [store; TStateId];
  mkDecl "ts_wasm_store_call_scanner_create" Tuint32 [store];
  mkDecl "ts_wasm_store_call_scanner_destroy" Tvoid [store; Tuint32];
  mkDecl "ts_wasm_store_call_scanner_scan" Tbool [store; Tuint32; Tuint32];
  mkDecl "ts_wasm_store_call_scanner_serialize" Tuint32
    [store; Tuint32; Tptr false "char"];
  mkDecl "ts_wasm_store_call_scanner_deserialize" Tvoid
    [store; Tuint32; Tptr true "char"; Tunsigned];
  mkDecl "ts_wasm_language_retain" Tvoid [Tptr true "TSLanguage"];
  mkDecl "ts_wasm_language_release" Tvoid [Tptr true "TSLanguage"]
].

Definition scanner_prefix : string := "ts_wasm_store_call_scanner_".

(** A declaration is a scanner-instance call when its name starts with
    [ts_wasm_store_call_scanner_]. *)
Definition is_scanner_call (d : fundecl) : bool :=
  String.prefix scanner_prefix (fn_name d).

Definition scanner_calls : list fundecl :=
  List.filter is_scanner_call wasm_store_h.

(** The operation a scanner call stands for: its name without the prefix. *)
Definition operation (d : fundecl) : string :=
  String.substring (String.length scanner_prefix)
    (String.length (fn_name d) - String.length scanner_prefix) (fn_name d).

Definition returns (op : string) : option ctype :=
  fn_ret <$> List.find (fun d => String.eqb (operation d) op) scanner_calls.

Definition params (op : string) : option (list ctype) :=
  fn_params <$> List.find (fun d => String.eqb (operation d) op) scanner_calls.

End WasmStore.

(** * Proofs *)

(** ** Machine arithmetic *)

Section WordFacts.

Lemma modulus_eq : modulus = 4294967296.
Proof. reflexivity. Qed.

Lemma wrap_range z : in_range (wrap z).
Proof. unfold in_range, wrap. rewrite modulus_eq. apply Z.mod_pos_bound. lia. Qed.

Lemma wrap_small z : in_range z -> wrap z = z.
Proof. unfold in_range, wrap. intros H. apply Z.mod_small. exact H. Qed.

Lemma wrap_add_l a b : wrap (wrap a + b) = wrap (a + b).
Proof. unfold wrap. apply Zplus_mod_idemp_l. Qed.

Lemma wrap_add_r a b : wrap (a + wrap b) = wrap (a + b).
Proof. unfold wrap. apply Zplus_mod_idemp_r. Qed.

Lemma wrap_mod4 z : wrap z mod 4 = z mod 4.
Proof.
  unfold wrap. rewrite modulus_eq. apply Z.mod_mod_divide.
  exists 1073741824. reflexivity.
Qed.

Lemma wrap_aligned z : aligned z -> aligned (wrap z).
Proof. unfold aligned. rewrite wrap_mod4. trivial. Qed.

(** Masking with [~0x3] clears the two low bits. *)
Lemma mask_align x : in_range x -> Z.land x (wrap (Z.lnot 3)) = x - x mod 4.
Proof.
  intros Hx.
  assert (Hm : wrap (Z.lnot 3) = Z.land (Z.ones 32) (Z.lnot (Z.ones 2)))
    by reflexivity.
  rewrite Hm, Z.land_assoc, Z.land_ones by lia.
  change (2 ^ 32) with modulus. fold (wrap x). rewrite (wrap_small x Hx).
  rewrite <- Z.ldiff_land, Z.ldiff_ones_r by lia.
  rewrite Z.shiftl_mul_pow2, Z.shiftr_div_pow2 by lia.
  change (2 ^ 2) with 4.
  pose proof (Z.div_mod x 4). lia.
Qed.

Lemma region_after_eq self len :
  region_after self len
  = wrap (self + len + 7) - wrap (self + len + 7) mod 4.
Proof.
  unfold region_after, region_data, sizeof_Region.
  rewrite mask_align by apply wrap_range.
  rewrite wrap_add_l.
  replace (wrap (self + 4) + len + 3) with (wrap (self + 4) + (len + 3)) by lia.
  rewrite wrap_add_l.
  replace (self + 4 + (len + 3)) with (self + len + 7) by lia.
  reflexivity.
Qed.

Lemma region_after_aligned self len : aligned (region_after self len).
Proof.
  unfold aligned. rewrite region_after_eq.
  set (x := wrap (self + len + 7)).
  rewrite Zminus_mod, Z.mod_mod, Z.sub_diag by lia. reflexivity.
Qed.

Lemma region_after_range self len : in_range (region_after self len).
Proof.
  rewrite region_after_eq.
  pose proof (wrap_range (self + len + 7)) as H. unfold in_range in *.
  pose proof (Z.mod_pos_bound (wrap (self + len + 7)) 4).
  pose proof (Z.div_mod (wrap (self + len + 7)) 4).
  pose proof (Z.div_pos (wrap (self + len + 7)) 4). lia.
Qed.

(** [region_after] only looks at the size modulo [2 ^ 32]. *)
Lemma region_after_wrap_len self len :
  region_after self (wrap len) = region_after self len.
Proof.
  rewrite !region_after_eq.
  replace (self + wrap len + 7) with (self + 7 + wrap len) by lia.
  rewrite wrap_add_r.
  replace (self + 7 + len) with (self + len + 7) by lia. reflexivity.
Qed.

(** Without wrap-around the next region starts after the payload, at most
    three padding bytes later. *)
Lemma region_after_no_wrap self len :
  0 <= self -> no_wrap self len ->
  self + sizeof_Region + len <= region_after self len
  /\ region_after self len <= self + sizeof_Region + len + 3.
Proof.
  unfold no_wrap, sizeof_Region. intros Hs [Hl Hw].
  rewrite region_after_eq, wrap_small by (unfold in_range; lia).
  pose proof (Z.mod_pos_bound (self + len + 7) 4). lia.
Qed.

Lemma region_for_ptr_data self :
  in_range self -> region_for_ptr (region_data self) = self.
Proof.
  intros H. unfold region_for_ptr, region_data.
  replace (wrap (self + sizeof_Region) - sizeof_Region)
    with (- sizeof_Region + wrap (self + sizeof_Region)) by lia.
  rewrite wrap_add_r.
  replace (- sizeof_Region + (self + sizeof_Region)) with self by lia.
  apply wrap_small, H.
Qed.



End WordFacts.

(** ** Linear memory *)

Section MemoryFacts.

Implicit Types (m : gmap Z Z) (a b v : Z).

Lemma byte_at_insert_eq m a v : byte_at (<[a:=v]> m) a = v mod 256.
Proof. unfold byte_at. rewrite lookup_insert_eq. reflexivity. Qed.

Lemma byte_at_insert_ne m a b v : a ≠ b -> byte_at (<[a:=v]> m) b = byte_at m b.
Proof. intros H. unfold byte_at. rewrite lookup_insert_ne by exact H. reflexivity. Qed.

Lemma byte_at_range m a : 0 <= byte_at m a < 256.
Proof. unfold byte_at. apply Z.mod_pos_bound. lia. Qed.

(** A 32-bit store changes the four bytes it covers and no other. *)
Lemma byte_at_write32_other a v m b :
  b < a \/ a + 4 <= b -> byte_at (write32 a v m) b = byte_at m b.
Proof.
  intros H. unfold write32. rewrite !byte_at_insert_ne by lia. reflexivity.
Qed.

Lemma wrap_bytes v :
  wrap v = v mod 256 + 256 * ((v / 256) mod 256)
           + 65536 * ((v / 65536) mod 256)
           + 16777216 * ((v / 16777216) mod 256).
Proof.
  unfold wrap. rewrite modulus_eq.
  change 4294967296 with (256 * 16777216).
  rewrite Z.rem_mul_r by lia.
  change 16777216 with (256 * 65536) at 1.
  rewrite (Z.rem_mul_r (v / 256)) by lia.
  change 65536 with (256 * 256) at 1.
  rewrite (Z.rem_mul_r (v / 256 / 256)) by lia.
  rewrite !Z.div_div by lia.
  change (256 * 256) with 65536. change (65536 * 256) with 16777216.
  lia.
Qed.

(** Reading back the word just stored. *)
Lemma read32_write32 a v m : read32 a (write32 a v m) = wrap v.
Proof.
  unfold read32, write32.
  rewrite byte_at_insert_eq.
  rewrite (byte_at_insert_ne _ (a + 3) (a + 2)), byte_at_insert_eq by lia.
  rewrite !(byte_at_insert_ne _ _ (a + 1)), byte_at_insert_eq by lia.
  rewrite !(byte_at_insert_ne _ _ a), byte_at_insert_eq by lia.
  rewrite !Z.mod_mod by lia.
  rewrite wrap_bytes. reflexivity.
Qed.

Lemma read32_ext a m m' :
  (forall i, 0 <= i < 4 -> byte_at m (a + i) = byte_at m' (a + i)) ->
  read32 a m = read32 a m'.
Proof.
  intros H. unfold read32.
  rewrite <- (H 1), <- (H 2), <- (H 3) by lia.
  pose proof (H 0) as H0. rewrite Z.add_0_r in H0. rewrite H0 by lia.
  reflexivity.
Qed.

Lemma read32_write32_other a b v m :
  b + 4 <= a \/ a + 4 <= b -> read32 b (write32 a v m) = read32 b m.
Proof.
  intros H. apply read32_ext. intros i Hi.
  apply byte_at_write32_other. lia.
Qed.

Lemma read32_range a m : in_range (read32 a m).
Proof.
  unfold read32, in_range. rewrite modulus_eq.
  pose proof (byte_at_range m a). pose proof (byte_at_range m (a + 1)).
  pose proof (byte_at_range m (a + 2)). pose proof (byte_at_range m (a + 3)).
  lia.
Qed.

Lemma byte_at_fill_other dst c n m b :
  b < dst \/ dst + n <= b -> byte_at (fill dst c n m) b = byte_at m b.
Proof.
  intros H. unfold fill.
  assert (Hall : Forall (fun a => a ≠ b) (seqZ dst n)).
  { apply Forall_forall. intros x Hx. apply elem_of_seqZ in Hx. lia. }
  induction Hall as [|x l Hx _ IH]; simpl; [reflexivity|].
  rewrite byte_at_insert_ne by exact Hx. exact IH.
Qed.

Lemma byte_at_copy_other dst src n m b :
  b < dst \/ dst + n <= b -> byte_at (copy dst src n m) b = byte_at m b.
Proof.
  intros H. unfold copy.
  assert (Hall : Forall (fun i => dst + i ≠ b) (seqZ 0 n)).
  { apply Forall_forall. intros x Hx. apply elem_of_seqZ in Hx. lia. }
  induction Hall as [|x l Hx _ IH]; simpl; [reflexivity|].
  rewrite byte_at_insert_ne by exact Hx. exact IH.
Qed.

End MemoryFacts.

(** ** The allocator functions in closed form *)

Ltac unfold_M :=
  unfold mbind, M_bind, bind, mret, M_ret, ret, gets, modify in *.

Ltac simpl_state :=
  cbn [negb set_heap_end set_heap_start set_mem_pages set_mem set_next
       next mem mem_pages heap_end heap_start mem_max_pages] in *.

Section Closed.

Lemma wf_pages_not_max s : wf s -> (mem_pages s =? SIZE_MAX) = false.
Proof.
  intros [_ _ _ Hp Hm]. apply Z.eqb_neq. unfold SIZE_MAX. rewrite modulus_eq. lia.
Qed.

Lemma reset_heap_eq a s :
  reset_heap a s
  = Ret tt (set_heap_end (wrap (mem_pages s * PAGESIZE))
              (set_next a (set_heap_start a s))).
Proof. reflexivity. Qed.

(** The closed form of [malloc].  The engine answers a successful
    [memory.grow] with the previous page count, which the source compares
    with [SIZE_MAX]. *)
Lemma malloc_closed size s :
  malloc size s =
    let region_end := region_after (next s) size in
    if heap_end s <? region_end then
      if MAX_HEAP_SIZE <? ptrdiff region_end (heap_start s) then Ret NULL s
      else if mem_pages s + new_page_count size <=? mem_max_pages s
           then if mem_pages s =? SIZE_MAX
                then Ret NULL (set_mem_pages (mem_pages s + new_page_count size) s)
                else commit size region_end (grown size s)
           else Ret NULL s
    else commit size region_end s.
Proof.
  unfold malloc, malloc_reserve, grow_heap, get_heap_end,
    wasm_memory_size, wasm_memory_grow, store32, commit, grown.
  unfold_M. cbn zeta.
  destruct (heap_end s <? region_after (next s) size).
  2:{ cbn [negb]. destruct (in_bounds (next s) 4 s); reflexivity. }
  destruct (MAX_HEAP_SIZE <? ptrdiff _ _); [reflexivity|].
  destruct (mem_pages s + new_page_count size <=? mem_max_pages s).
  - destruct (mem_pages s =? SIZE_MAX); simpl_state; [reflexivity|].
    match goal with |- context [in_bounds ?a ?n ?t] =>
      destruct (in_bounds a n t) end; reflexivity.
  - reflexivity.
Qed.

Lemma malloc_eq size s :
  wf s ->
  malloc size s =
    let region_end := region_after (next s) size in
    if heap_end s <? region_end then
      if MAX_HEAP_SIZE <? ptrdiff region_end (heap_start s) then Ret NULL s
      else if mem_pages s + new_page_count size <=? mem_max_pages s
           then commit size region_end (grown size s)
           else Ret NULL s
    else commit size region_end s.
Proof.
  intros Hwf. rewrite malloc_closed, (wf_pages_not_max s Hwf). reflexivity.
Qed.

Lemma free_eq ptr s :
  free ptr s =
    if ptr =? NULL then Ret tt s
    else if in_bounds (region_for_ptr ptr) 4 s then
      if region_after (region_for_ptr ptr)
           (read32 (region_for_ptr ptr) (mem s)) =? next s
      then Ret tt (set_next (region_for_ptr ptr) s)
      else Ret tt s
    else Trap.
Proof.
  unfold free, load32. unfold_M.
  destruct (ptr =? NULL); [reflexivity|].
  destruct (in_bounds _ _ _); [|reflexivity].
  destruct (_ =? _); reflexivity.
Qed.

Lemma realloc_eq ptr new_size s :
  realloc ptr new_size s =
    if ptr =? NULL then malloc new_size s
    else if in_bounds (region_for_ptr ptr) 4 s then
      if region_after (region_for_ptr ptr)
           (read32 (region_for_ptr ptr) (mem s)) =? next s
      then malloc new_size (set_next (region_for_ptr ptr) s)
      else
        match malloc new_size s with
        | Ret result s1 =>
            if in_bounds (region_for_ptr ptr) 4 s1 then
              match memcpy result (region_data (region_for_ptr ptr))
                      (read32 (region_for_ptr ptr) (mem s1)) s1 with
              | Ret _ s2 => Ret result s2
              | Trap => Trap
              end
            else Trap
        | Trap => Trap
        end
    else Trap.
Proof.
  unfold realloc, load32. unfold_M.
  destruct (ptr =? NULL); [reflexivity|].
  destruct (in_bounds _ _ s); [|reflexivity].
  destruct (_ =? _); [reflexivity|].
  destruct (malloc new_size s) as [result s1|]; [|reflexivity].
  destruct (in_bounds _ _ s1); reflexivity.
Qed.

Lemma calloc_eq count size s :
  calloc count size s =
    match malloc (wrap (count * size)) s with
    | Ret result s1 =>
        match memset result 0 (wrap (count * size)) s1 with
        | Ret _ s2 => Ret result s2
        | Trap => Trap
        end
    | Trap => Trap
    end.
Proof. reflexivity. Qed.

End Closed.

(** ** What the calls do to the state *)

Section Effects.

Lemma wf_set_next v s : in_range v -> wf s -> wf (set_next v s).
Proof. intros Hv [? ? ? ? ?]. split; assumption. Qed.

Lemma wf_set_mem m s : wf s -> wf (set_mem m s).
Proof. intros [? ? ? ? ?]. split; assumption. Qed.

Lemma wf_reset a s : in_range a -> wf s ->
  wf (state_of (reset_heap a s) s).
Proof.
  intros Ha [? ? ? ? ?]. rewrite reset_heap_eq. cbn [state_of].
  split; simpl_state; try assumption. apply wrap_range.
Qed.

Lemma wf_grown size s :
  wf s -> mem_pages s + new_page_count size <= mem_max_pages s ->
  wf (grown size s).
Proof.
  intros [? ? ? ? ?] Hg. unfold grown. split; simpl_state; try assumption.
  - apply wrap_range.
  - pose proof (wrap_range (wrap (size - 1) / PAGESIZE + 1)) as Hr.
    unfold in_range in Hr. fold (new_page_count size) in Hr. lia.
Qed.

Lemma in_bounds_grown a size s :
  wf s -> in_bounds a 4 s = true -> in_bounds a 4 (grown size s) = true.
Proof.
  unfold in_bounds, mem_bytes, grown, PAGESIZE. simpl_state.
  intros _ H. apply andb_true_iff in H as [H1 H2].
  apply andb_true_iff. split; [exact H1|].
  apply Z.leb_le in H2. apply Z.leb_le.
  pose proof (wrap_range (wrap (size - 1) / PAGESIZE + 1)) as Hr.
  unfold in_range in Hr. fold (new_page_count size) in Hr. lia.
Qed.

Lemma commit_served size s0 p s' :
  wf s0 -> commit size (region_after (next s0) size) s0 = Ret p s' ->
  p = region_data (next s0)
  /\ s' = set_next (region_after (next s0) size)
            (set_mem (write32 (next s0) size (mem s0)) s0)
  /\ in_bounds (next s0) 4 s0 = true.
Proof.
  unfold commit. intros Hwf H.
  destruct (in_bounds (next s0) 4 s0) eqn:Hb; [|discriminate].
  inversion H; subst. auto.
Qed.

(** [malloc] traps, refuses the request and leaves the state as it is, or
    serves it. *)
Lemma malloc_cases size s p s' :
  wf s -> malloc size s = Ret p s' ->
  (p = NULL /\ s' = s) \/ served size s p s'.
Proof.
  intros Hwf. rewrite malloc_eq by exact Hwf. cbn zeta.
  destruct (heap_end s <? region_after (next s) size) eqn:Hhe.
  - destruct (MAX_HEAP_SIZE <? ptrdiff _ _) eqn:Hmax.
    { intros H; inversion H; subst; auto. }
    destruct (mem_pages s + new_page_count size <=? mem_max_pages s) eqn:Hg.
    2:{ intros H; inversion H; subst; auto. }
    apply Z.leb_le in Hg. intros H. right.
    pose proof (wf_grown size s Hwf Hg) as Hwg.
    change (next s) with (next (grown size s)) in H.
    apply commit_served in H as (-> & -> & Hb); [|exact Hwg].
    pose proof (wrap_range (wrap (size - 1) / PAGESIZE + 1)) as Hr.
    unfold in_range in Hr. fold (new_page_count size) in Hr.
    split; try (unfold grown; simpl_state; reflexivity).
    + unfold grown; simpl_state. lia.
    + exact Hb.
    + apply wf_set_next; [apply region_after_range|].
      apply wf_set_mem. exact Hwg.
  - intros H. right.
    apply commit_served in H as (-> & -> & Hb); [|exact Hwf].
    split; simpl_state; try reflexivity.
    + exact Hb.
    + apply wf_set_next; [apply region_after_range|].
      apply wf_set_mem. exact Hwf.
Qed.

Lemma malloc_wf size s p s' : wf s -> malloc size s = Ret p s' -> wf s'.
Proof.
  intros Hwf H. destruct (malloc_cases _ _ _ _ Hwf H) as [[_ ->]|Hs].
  - exact Hwf.
  - apply (sv_wf _ _ _ _ Hs).
Qed.

(** The shape of the result of [malloc], for any state at all: [next]
    stays or moves to [region_after], the pointer is [NULL] or the payload
    of the region at [next]. *)
Lemma malloc_shape size s p s' :
  malloc size s = Ret p s' ->
  (p = NULL /\ next s' = next s)
  \/ (p = region_data (next s) /\ next s' = region_after (next s) size).
Proof.
  rewrite malloc_closed. cbn zeta. unfold commit, grown. simpl_state.
  repeat match goal with
         | |- context [if ?c then _ else _] => destruct c
         end;
    intros H; inversion H; subst; simpl_state; auto.
Qed.

(** [free] never writes to the memory, and leaves the bounds of the heap
    alone: it returns the state as it is, or with [next] moved back to
    the region of the pointer. *)
Lemma free_cases ptr s s' :
  free ptr s = Ret tt s' ->
  s' = s \/ (ptr ≠ NULL /\ s' = set_next (region_for_ptr ptr) s
             /\ region_after (region_for_ptr ptr)
                  (read32 (region_for_ptr ptr) (mem s)) = next s).
Proof.
  rewrite free_eq.
  destruct (ptr =? NULL) eqn:Hn; [intros H; inversion H; auto|].
  apply Z.eqb_neq in Hn.
  destruct (in_bounds _ _ _); [|discriminate].
  destruct (region_after _ _ =? next s) eqn:He; intros H; inversion H; auto.
  right. apply Z.eqb_eq in He. auto.
Qed.

Lemma free_mem ptr s s' : free ptr s = Ret tt s' -> mem s' = mem s.
Proof. intros H. destruct (free_cases _ _ _ H) as [->|(_ & -> & _)]; reflexivity. Qed.


End Effects.

(** ** Alignment *)

Section Alignment.











End Alignment.


(** ** The most recent block *)

Section LastBlock.

Lemma in_bounds_spec a n s :
  in_bounds a n s = true <-> 0 <= a /\ a + n <= mem_bytes s.
Proof.
  unfold in_bounds. rewrite andb_true_iff, Z.leb_le, Z.leb_le. reflexivity.
Qed.

Lemma mem_bytes_le s : wf s -> mem_bytes s <= modulus.
Proof.
  intros [_ _ _ Hp Hm]. unfold mem_bytes, PAGESIZE. rewrite modulus_eq. lia.
Qed.

(** A block that [malloc] served with a pointer other than [NULL] has its
    header in the four bytes right below the pointer. *)
Lemma served_ptr size s p s' :
  wf s -> served size s p s' -> p ≠ NULL ->
  region_for_ptr p = next s /\ p = next s + sizeof_Region.
Proof.
  intros Hwf Hs Hp. destruct Hs as [-> _ _ _ _ _ Hb Hwf'].
  split; [apply region_for_ptr_data, (wf_next _ Hwf)|].
  apply in_bounds_spec in Hb as [H0 H4].
  pose proof (mem_bytes_le _ Hwf') as Hle.
  unfold region_data, sizeof_Region in *.
  destruct (Z.eq_dec (next s + 4) modulus) as [E|E].
  - exfalso. apply Hp. unfold wrap. rewrite E. apply Z.mod_same.
    rewrite modulus_eq. lia.
  - apply wrap_small. unfold in_range. lia.
Qed.

(** Right after [malloc] the test of [free] and [realloc] for the last
    allocated region succeeds. *)
Lemma served_is_last size s p s' :
  served size s p s' ->
  region_after (next s) (read32 (next s) (mem s')) = next s'.
Proof.
  intros Hs. rewrite (sv_mem _ _ _ _ Hs), read32_write32.
  rewrite region_after_wrap_len. symmetry. apply (sv_next _ _ _ _ Hs).
Qed.

(** A request for which space is available is served. *)
Lemma malloc_available size s :
  wf s -> space_available s (next s) size -> in_bounds (next s) 4 s = true ->
  exists s', malloc size s = Ret (region_data (next s)) s'
             /\ mem s' = write32 (next s) size (mem s)
             /\ next s' = region_after (next s) size.
Proof.
  intros Hwf Hav Hb. rewrite malloc_eq by exact Hwf. cbn zeta.
  destruct (heap_end s <? region_after (next s) size) eqn:Hhe.
  - apply Z.ltb_lt in Hhe. destruct Hav as [Hfit|[Hmax Hgrow]]; [lia|].
    apply Z.ltb_ge in Hmax. rewrite Hmax.
    apply Z.leb_le in Hgrow. rewrite Hgrow.
    unfold commit. change (next (grown size s)) with (next s).
    rewrite (in_bounds_grown _ _ _ Hwf Hb).
    eexists. split; [reflexivity|]. split; reflexivity.
  - unfold commit. rewrite Hb.
    eexists. split; [reflexivity|]. split; reflexivity.
Qed.

End LastBlock.


(** ** Independence from the memory contents *)

Section Independence.

Lemma insert_agree (m m' : gmap Z Z) k v a :
  k = a \/ byte_at m a = byte_at m' a ->
  byte_at (<[k:=v]> m) a = byte_at (<[k:=v]> m') a.
Proof.
  intros H. destruct (Z.eq_dec k a) as [->|Hne].
  - rewrite !byte_at_insert_eq. reflexivity.
  - rewrite !byte_at_insert_ne by exact Hne. destruct H; [contradiction|assumption].
Qed.

(** The same store in two memories keeps every agreement, and makes the
    stored bytes agree. *)
Lemma write32_agree m m' x v a :
  x <= a < x + 4 \/ byte_at m a = byte_at m' a ->
  byte_at (write32 x v m) a = byte_at (write32 x v m') a.
Proof.
  intros H. unfold write32.
  destruct (Z.eq_dec (x + 3) a); [apply insert_agree; auto|].
  apply insert_agree; right.
  destruct (Z.eq_dec (x + 2) a); [apply insert_agree; auto|].
  apply insert_agree; right.
  destruct (Z.eq_dec (x + 1) a); [apply insert_agree; auto|].
  apply insert_agree; right.
  apply insert_agree. destruct H; [left; lia | right; assumption].
Qed.

Lemma fill_agree m m' dst c n a :
  byte_at m a = byte_at m' a ->
  byte_at (fill dst c n m) a = byte_at (fill dst c n m') a.
Proof.
  intros H. unfold fill. induction (seqZ dst n) as [|x l IH]; cbn [foldr].
  - exact H.
  - apply insert_agree. right. exact IH.
Qed.

Lemma in_bounds_same a n s s' :
  mem_pages s = mem_pages s' -> in_bounds a n s = in_bounds a n s'.
Proof. intros H. unfold in_bounds, mem_bytes. rewrite H. reflexivity. Qed.

(** [malloc] does not look at the bytes of the memory. *)
Lemma malloc_same size s s' :
  same_allocator s s' ->
  match malloc size s with
  | Trap => malloc size s' = Trap
  | Ret p t =>
      exists t', malloc size s' = Ret p t' /\ same_allocator t t'
        /\ ((p = NULL /\ mem t = mem s /\ mem t' = mem s' /\ next t = next s)
            \/ (p = region_data (next s) /\ next t = region_after (next s) size
                /\ mem t = write32 (next s) size (mem s)
                /\ mem t' = write32 (next s) size (mem s')))
  end.
Proof.
  destruct s as [he hs n pg mx m], s' as [he' hs' n' pg' mx' m'].
  unfold same_allocator. simpl_state.
  intros (<- & <- & <- & <- & <-).
  rewrite !malloc_closed. cbn zeta.
  unfold commit, grown, in_bounds, mem_bytes. simpl_state.
  repeat match goal with
         | |- context [if ?c then _ else _] => destruct c
         end;
    try reflexivity;
    (eexists; split; [reflexivity|]; split; [repeat split|]; simpl_state; auto).
Qed.

Lemma same_header_write32 s s' t t' x v p :
  mem t = write32 x v (mem s) -> mem t' = write32 x v (mem s') ->
  same_header s s' p -> same_header t t' p.
Proof.
  intros E E' H Hp i Hi. rewrite E, E'. apply write32_agree. right.
  apply H; assumption.
Qed.

Lemma same_header_mem s s' t t' p :
  mem t = mem s -> mem t' = mem s' ->
  same_header s s' p -> same_header t t' p.
Proof. intros E E' H Hp i Hi. rewrite E, E'. apply H; assumption. Qed.

Lemma same_header_new s s' t t' x v :
  in_range x ->
  mem t = write32 x v (mem s) -> mem t' = write32 x v (mem s') ->
  same_header t t' (region_data x).
Proof.
  intros Hx E E' _ i Hi. rewrite E, E', region_for_ptr_data by exact Hx.
  apply write32_agree. left. lia.
Qed.

Lemma malloc_same_run size results s s' :
  same_run results s s' ->
  match malloc size s with
  | Trap => malloc size s' = Trap
  | Ret p t =>
      exists t', malloc size s' = Ret p t' /\ same_run (results ++ [p]) t t'
  end.
Proof.
  intros (Hsame & Hn & Hr).
  pose proof (malloc_same size s s' Hsame) as H.
  destruct (malloc size s) as [p t|]; [|exact H].
  destruct H as (t' & Hm & Hsame' & Hcase). exists t'. split; [exact Hm|].
  split; [exact Hsame'|].
  destruct Hcase as [(-> & E & E' & En)|(-> & En & E & E')].
  - split; [rewrite En; exact Hn|].
    apply Forall_app. split.
    + apply (Forall_impl _ _ _ Hr). intros q. apply same_header_mem; assumption.
    + constructor; [|constructor]. intros Hp. contradiction.
  - split; [rewrite En; apply region_after_range|].
    apply Forall_app. split.
    + apply (Forall_impl _ _ _ Hr). intros q.
      apply (same_header_write32 s s' t t' (next s) size); assumption.
    + constructor; [|constructor].
      apply (same_header_new s s' t t' (next s) size); assumption.
Qed.

Lemma memset_same_run dst c n results s s' :
  same_run results s s' ->
  match memset dst c n s with
  | Trap => memset dst c n s' = Trap
  | Ret _ t => exists t', memset dst c n s' = Ret tt t' /\ same_run results t t'
  end.
Proof.
  intros (Hsame & Hn & Hr). unfold memset.
  rewrite <- (in_bounds_same dst n s s') by apply Hsame.
  destruct (in_bounds dst n s); [|reflexivity].
  eexists. split; [reflexivity|]. split; [|split].
  - unfold same_allocator in *. simpl_state. exact Hsame.
  - exact Hn.
  - apply (Forall_impl _ _ _ Hr). intros q Hq Hp i Hi. simpl_state.
    apply fill_agree. apply Hq; assumption.
Qed.

Lemma free_same_run ptr results s s' :
  same_run results s s' -> same_header s s' ptr ->
  match free ptr s with
  | Trap => free ptr s' = Trap
  | Ret _ t => exists t', free ptr s' = Ret tt t' /\ same_run results t t'
  end.
Proof.
  intros (Hsame & Hn & Hr) Hh. rewrite !free_eq.
  destruct (ptr =? NULL) eqn:Hp.
  { exists s'. split; [reflexivity|]. split; [exact Hsame|]. split; assumption. }
  apply Z.eqb_neq in Hp.
  rewrite <- (in_bounds_same _ 4 s s') by apply Hsame.
  destruct (in_bounds _ _ s); [|reflexivity].
  rewrite <- (read32_ext _ (mem s) (mem s') (Hh Hp)).
  replace (next s') with (next s) by apply Hsame.
  destruct (region_after _ _ =? next s).
  - eexists. split; [reflexivity|]. split; [|split].
    + unfold same_allocator in *. simpl_state. tauto.
    + simpl_state. apply wrap_range.
    + apply (Forall_impl _ _ _ Hr). intros q.
      apply same_header_mem; reflexivity.
  - exists s'. split; [reflexivity|]. split; [exact Hsame|]. split; assumption.
Qed.

Lemma arg_value_same_header results a s s' :
  Forall (same_header s s') results -> same_header s s' (arg_value results a).
Proof.
  intros Hr. destruct a as [|i]; cbn [arg_value].
  - intros Hp. contradiction.
  - destruct (results !! i) as [p|] eqn:Hi; cbn [default].
    + apply (proj1 (Forall_lookup _ _) Hr i p Hi).
    + intros Hp. contradiction.
Qed.

Lemma do_call_same_run c results s s' :
  is_realloc c = false -> same_run results s s' ->
  match do_call c results s with
  | Trap => do_call c results s' = Trap
  | Ret r t => exists t', do_call c results s' = Ret r t' /\ same_run r t t'
  end.
Proof.
  intros Hc Hrun. destruct c as [size|count size|a n|a]; cbn [do_call]; unfold_M.
  - pose proof (malloc_same_run size results s s' Hrun) as H.
    destruct (malloc size s) as [p t|]; [|rewrite H; reflexivity].
    destruct H as (t' & -> & H). exists t'. auto.
  - rewrite !calloc_eq.
    pose proof (malloc_same_run (wrap (count * size)) results s s' Hrun) as H.
    destruct (malloc _ s) as [p t|]; [|rewrite H; reflexivity].
    destruct H as (t' & -> & H).
    pose proof (memset_same_run p 0 (wrap (count * size)) _ t t' H) as H2.
    destruct (memset _ _ _ t) as [[] u|]; [|rewrite H2; reflexivity].
    destruct H2 as (u' & -> & H2). exists u'. auto.
  - discriminate.
  - pose proof (free_same_run (arg_value results a) results s s' Hrun
                  (arg_value_same_header _ _ _ _ (proj2 (proj2 Hrun)))) as H.
    destruct (free _ s) as [[] t|]; [|rewrite H; reflexivity].
    destruct H as (t' & -> & H). exists t'. auto.
Qed.

(** Two runs of the same [malloc], [calloc] and [free] calls, from states
    that differ in the bytes of the memory only, return the same pointers
    and trap at the same call. *)
Lemma run_same_run cs : forall results s s' results' t trapped,
  no_realloc cs = true -> same_run results s s' ->
  run cs results s = (results', t, trapped) ->
  exists t', run cs results s' = (results', t', trapped)
             /\ same_run results' t t'.
Proof.
  induction cs as [|c cs IH]; intros results s s' results' t trapped Hnr Hrun;
    cbn [run].
  - intros H; inversion H; subst. exists s'. auto.
  - cbn [no_realloc forallb] in Hnr. apply andb_true_iff in Hnr as [Hc Hcs].
    apply negb_true_iff in Hc.
    pose proof (do_call_same_run c results s s' Hc Hrun) as H.
    destruct (do_call c results s) as [r1 s1|].
    + destruct H as (s1' & -> & H1). apply IH; assumption.
    + rewrite H. intros E; inversion E; subst. exists s'. auto.
Qed.

(** The blocks of a run of served requests are placed by [next] and the
    sizes alone. *)
Lemma mallocs_layout sizes : forall s ps s',
  mallocs sizes s = Ret ps s' -> Forall (fun p => p ≠ NULL) ps ->
  ps = layout (next s) sizes.
Proof.
  induction sizes as [|size sizes IH]; intros s ps s'; cbn [mallocs layout]; unfold_M.
  - intros H _. inversion H. reflexivity.
  - destruct (malloc size s) as [p s1|] eqn:Hm; [|discriminate].
    destruct (mallocs sizes s1) as [ps1 s2|] eqn:Hms; [|discriminate].
    intros H Hall. inversion H; subst. inversion Hall as [|? ? Hp Hps]; subst.
    destruct (malloc_shape _ _ _ _ Hm) as [[E _]|[-> En]]; [contradiction|].
    f_equal. rewrite <- En. apply (IH _ _ _ Hms Hps).
Qed.

End Independence.

(** C5, as the code has it.  After [reset_heap a] the heap starts at [a]
    and is empty: [heap_start] and [next] are both [a].  The first block
    [malloc] then serves has its region at [a]: the header is at [a], the
    pointer returned is the payload right after it.  The blocks served by
    later [malloc] calls are placed by [a] and the sizes requested alone.
    What was allocated before the reset reaches later [malloc], [calloc]
    and [free] calls through the size of the linear memory only: from any
    two prior allocator states of a memory of the same size, the same
    calls return the same pointers, trap at the same call, and end with the
    same heap bounds and bump pointer.  Nothing is said of runs that call
    [realloc], which copies payload bytes the reset left in place. *)
Theorem reset_heap_fresh_start (a : Z) (pre : State) :
  in_range a ->
  exists s0,
    reset_heap a pre = Ret tt s0
    /\ heap_start s0 = a /\ next s0 = a
    /\ (forall size p s1,
          malloc size s0 = Ret p s1 -> p ≠ NULL ->
          region_for_ptr p = a /\ p = region_data a /\ next s1 = region_after a size)
    /\ (forall sizes ps s1,
          mallocs sizes s0 = Ret ps s1 -> Forall (fun p => p ≠ NULL) ps ->
          ps = layout a sizes)
    /\ (forall pre' s0' cs results s trapped,
          mem_pages pre' = mem_pages pre ->
          mem_max_pages pre' = mem_max_pages pre ->
          reset_heap a pre' = Ret tt s0' ->
          no_realloc cs = true ->
          run cs [] s0 = (results, s, trapped) ->
          exists s', run cs [] s0' = (results, s', trapped)
                     /\ same_allocator s s').
Proof.
  intros Ha. rewrite reset_heap_eq. eexists. split; [reflexivity|].
  simpl_state. split; [reflexivity|]. split; [reflexivity|].
  split; [|split].
  - intros size p s1 Hm Hp.
    destruct (malloc_shape _ _ _ _ Hm) as [[E _]|[E En]]; [contradiction|].
    simpl_state. subst p. split; [apply region_for_ptr_data, Ha|]. auto.
  - intros sizes ps s1 Hm Hall. apply (mallocs_layout _ _ _ _ Hm Hall).
  - intros pre' s0' cs results s trapped Hpg Hmx Hreset Hnr Hrun.
    rewrite reset_heap_eq in Hreset. inversion Hreset; subst s0'; clear Hreset.
    eapply run_same_run in Hrun as (s' & Hrun' & Hsame & _); [| exact Hnr |].
    + exists s'. split; [exact Hrun' | exact Hsame].
    + split; [|split; [exact Ha | constructor]].
      unfold same_allocator. simpl_state. rewrite Hpg, Hmx. auto.
Qed.

(** ** The heap ceiling *)

Section Ceiling.


(** Inside the address space [region_after] is [region_end]. *)
Lemma region_after_region_end base size :
  0 <= base -> no_wrap base size -> region_after base size = region_end base size.
Proof.
  unfold no_wrap, region_end, sizeof_Region. intros Hb [Hl Hw].
  rewrite region_after_eq, wrap_small by (unfold in_range; lia).
  replace (base + 4 + size + 3) with (base + size + 7) by lia.
  pose proof (Z.div_mod (base + size + 7) 4). lia.
Qed.


(** A request that fits below [heap_end] is served at [next]. *)
Lemma malloc_fits s size :
  wf s -> region_after (next s) size <= heap_end s ->
  in_bounds (next s) 4 s = true ->
  exists s', malloc size s = Ret (region_data (next s)) s'.
Proof.
  intros Hwf Hfit Hb.
  destruct (malloc_available size s Hwf) as (s' & Hm & _); [left|..]; eauto.
Qed.


End Ceiling.


(** ** Stack discipline, for sizes that do not wrap around *)

Section StackDiscipline.

Lemma frees_app l1 l2 s :
  frees (l1 ++ l2) s
  = match frees l1 s with
    | Ret _ s' => frees l2 s'
    | Trap => Trap
    end.
Proof.
  revert s. induction l1 as [|p l1 IH]; intros s; cbn [frees app]; unfold_M.
  - reflexivity.
  - destruct (free p s) as [[] s'|]; [apply IH | reflexivity].
Qed.

(** One served request, without wrap-around: [next] moves up by at least
    the header, and the bytes below the old [next] are not written. *)
Lemma served_frame size s p s' :
  wf s -> no_wrap (next s) size -> served size s p s' ->
  next s + sizeof_Region <= next s'
  /\ (forall a, a < next s -> byte_at (mem s') a = byte_at (mem s) a).
Proof.
  intros Hwf Hnw Hs. pose proof (wf_next _ Hwf) as [Hn0 _].
  destruct (region_after_no_wrap _ _ Hn0 Hnw) as [Hlo _].
  destruct Hnw as [Hsz _]. rewrite (sv_next _ _ _ _ Hs). split; [lia|].
  intros a Ha. rewrite (sv_mem _ _ _ _ Hs).
  apply byte_at_write32_other. lia.
Qed.

Lemma alloc_trace_frame s ps s' :
  wf s -> alloc_trace s ps s' ->
  wf s' /\ next s <= next s' /\ mem_pages s <= mem_pages s'
  /\ (ps ≠ [] -> next s < next s')
  /\ (forall a, a < next s -> byte_at (mem s') a = byte_at (mem s) a).
Proof.
  intros Hwf Ht. induction Ht as [s|s size p s1 ps s2 Hnw Hm Hp Ht IH].
  - split; [exact Hwf|]. split; [lia|]. split; [lia|]. split.
    + intros H. exfalso. apply H. reflexivity.
    + reflexivity.
  - destruct (malloc_cases _ _ _ _ Hwf Hm) as [[E _]|Hs]; [contradiction|].
    destruct (served_frame _ _ _ _ Hwf Hnw Hs) as [Hup Hlow].
    destruct (IH (sv_wf _ _ _ _ Hs)) as (Hwf2 & Hle & Hpg & _ & Hbytes).
    pose proof (sv_pages _ _ _ _ Hs). unfold sizeof_Region in *.
    split; [exact Hwf2|]. split; [lia|]. split; [lia|]. split; [lia|].
    intros a Ha. rewrite Hbytes by lia. apply Hlow, Ha.
Qed.

Lemma in_bounds_mono a n s s' :
  mem_pages s <= mem_pages s' -> in_bounds a n s = true ->
  in_bounds a n s' = true.
Proof.
  rewrite !in_bounds_spec. unfold mem_bytes, PAGESIZE. lia.
Qed.

(** The header of the first block of a trace, as [free] finds it at the
    end of the trace. *)
Lemma alloc_trace_head s size p s1 ps s2 :
  wf s -> no_wrap (next s) size -> malloc size s = Ret p s1 -> p ≠ NULL ->
  alloc_trace s1 ps s2 ->
  region_for_ptr p = next s
  /\ in_bounds (next s) 4 s2 = true
  /\ region_after (next s) (read32 (next s) (mem s2)) = next s1.
Proof.
  intros Hwf Hnw Hm Hp Ht.
  destruct (malloc_cases _ _ _ _ Hwf Hm) as [[E _]|Hs]; [contradiction|].
  destruct (served_ptr _ _ _ _ Hwf Hs Hp) as [Hr _].
  destruct (served_frame _ _ _ _ Hwf Hnw Hs) as [Hup _].
  destruct (alloc_trace_frame _ _ _ (sv_wf _ _ _ _ Hs) Ht)
    as (_ & _ & Hpg & _ & Hbytes).
  split; [exact Hr|]. split.
  - apply (in_bounds_mono _ _ s1); [exact Hpg | apply (sv_bounds _ _ _ _ Hs)].
  - rewrite (read32_ext _ (mem s2) (mem s1)).
    + apply (served_is_last _ _ _ _ Hs).
    + intros i Hi. apply Hbytes. unfold sizeof_Region in *. lia.
Qed.


(** Freeing a block that is not the last one of a trace is a no-op. *)
Lemma free_earlier_noop s ps s1 i p :
  wf s -> alloc_trace s ps s1 ->
  ps !! i = Some p -> (S i < length ps)%nat ->
  free p s1 = Ret tt s1.
Proof.
  intros Hwf Ht. revert i.
  induction Ht as [s|s size q s1 ps s2 Hnw Hm Hq Ht IH]; intros i Hi Hlen.
  - discriminate.
  - destruct i as [|i]; cbn in Hi, Hlen.
    + inversion Hi; subst q.
      destruct (alloc_trace_head _ _ _ _ _ _ Hwf Hnw Hm Hq Ht) as (Hr & Hb & Hlast).
      destruct (alloc_trace_frame _ _ _ (malloc_wf _ _ _ _ Hwf Hm) Ht)
        as (_ & _ & _ & Hstrict & _).
      assert (Hne : ps ≠ []) by (destruct ps; [cbn in Hlen; lia | discriminate]).
      specialize (Hstrict Hne).
      rewrite free_eq. apply Z.eqb_neq in Hq. rewrite Hq, Hr, Hb, Hlast.
      assert (E : (next s1 =? next s2) = false) by (apply Z.eqb_neq; lia).
      rewrite E. reflexivity.
    + apply (IH (malloc_wf _ _ _ _ Hwf Hm) i Hi). lia.
Qed.

(** Freeing the block [malloc] just returned moves [next] back to where
    it was, for any size: the next block is placed at the same address. *)
Lemma free_last_rewinds size s p s1 :
  wf s -> malloc size s = Ret p s1 -> p ≠ NULL ->
  free p s1 = Ret tt (set_next (next s) s1)
  /\ (forall size' q s2,
        malloc size' (set_next (next s) s1) = Ret q s2 -> q ≠ NULL -> q = p).
Proof.
  intros Hwf Hm Hp.
  destruct (malloc_cases _ _ _ _ Hwf Hm) as [[E _]|Hs]; [contradiction|].
  destruct (served_ptr _ _ _ _ Hwf Hs Hp) as [Hr _].
  split.
  - rewrite free_eq. apply Z.eqb_neq in Hp.
    rewrite Hp, Hr, (sv_bounds _ _ _ _ Hs), (served_is_last _ _ _ _ Hs).
    rewrite Z.eqb_refl. reflexivity.
  - intros size' q s2 Hm2 Hq.
    destruct (malloc_shape _ _ _ _ Hm2) as [[E _]|[E _]]; [contradiction|].
    simpl_state. rewrite E. symmetry. apply (sv_ptr _ _ _ _ Hs).
Qed.



End StackDiscipline.


(** C2, for sizes that do not wrap around.  Freeing the block [malloc] just
    returned moves [next] back to the region of that block, whatever the
    state and the size were, and the next block served is placed at the
    same address.  In a run of [malloc] calls of sizes that keep every
    region inside the address space, freeing a block older than the most
    recent one returns the state as it is. *)
Theorem free_last_and_earlier :
  (forall size s p s1,
      wf s -> malloc size s = Ret p s1 -> p ≠ NULL ->
      exists s2, free p s1 = Ret tt s2
        /\ next s2 = region_for_ptr p /\ next s2 = next s
        /\ (forall size' q s3, malloc size' s2 = Ret q s3 -> q ≠ NULL -> q = p))
  /\ (forall s ps s1 i p,
        wf s -> alloc_trace s ps s1 ->
        ps !! i = Some p -> (S i < length ps)%nat ->
        free p s1 = Ret tt s1).
Proof.
  split.
  - intros size s p s1 Hwf Hm Hp.
    destruct (free_last_rewinds _ _ _ _ Hwf Hm Hp) as [Hf Hnext].
    destruct (malloc_cases _ _ _ _ Hwf Hm) as [[E _]|Hs]; [contradiction|].
    destruct (served_ptr _ _ _ _ Hwf Hs Hp) as [Hr _].
    exists (set_next (next s) s1). simpl_state. auto.
  - intros s ps s1 i p. apply free_earlier_noop.
Qed.

(** ** The tree cursor *)

Module CursorFacts.
Import Cursor.

Lemma last_removelast {A} (l : list A) e :
  last l = Some e -> l = removelast l ++ [e].
Proof.
  induction l as [|x l IH]; [discriminate|].
  destruct l as [|y l].
  - cbn. intros H; inversion H; reflexivity.
  - intros H. change (removelast (x :: y :: l)) with (x :: removelast (y :: l)).
    cbn [app]. f_equal. apply IH. exact H.
Qed.

Lemma removelast_snoc {A} (l : list A) x : removelast (l ++ [x]) = l.
Proof.
  induction l as [|y l IH]; [reflexivity|].
  cbn [app]. destruct (l ++ [x]) as [|z l'] eqn:E.
  - destruct l; discriminate.
  - change (removelast (y :: z :: l')) with (y :: removelast (z :: l')).
    rewrite IH. reflexivity.
Qed.

(** No move: the result is [TreeCursorStepNone] and no other. *)
Lemma unmoved below c :
  exactly_one_outcome None below c (TreeCursorStepNone, c).
Proof.
  split; [split; reflexivity|]. intros r. destruct r; cbn [outcome fst snd].
  - reflexivity.
  - intros (t & H & _). discriminate.
  - intros (t & H & _). discriminate.
Qed.

(** A move that puts a frame for [t] on top of [below]. *)
Lemma moved c below e' :
  below ++ [e'] ≠ stack c ->
  exactly_one_outcome (Some (subtree e')) below c
    (step_of (subtree e'), set_stack (below ++ [e']) c).
Proof.
  intros Hne.
  assert (Hland : landed (Some (subtree e')) below (visible (subtree e')) c
                    (set_stack (below ++ [e']) c)).
  { exists (subtree e'). unfold ts_tree_cursor_current_subtree, set_stack.
    cbn [stack tree]. rewrite last_snoc, removelast_snoc. auto 10. }
  split; cbn [fst snd].
  - unfold step_of. destruct (visible (subtree e')); exact Hland.
  - intros r Hr. unfold step_of.
    destruct r; cbn [outcome] in Hr.
    + destruct Hr as [Hr _]. discriminate.
    + destruct Hr as (t & Ht & Hv & _). inversion Ht; subst t.
      rewrite Hv. reflexivity.
    + destruct Hr as (t & Ht & Hv & _). inversion Ht; subst t.
      rewrite Hv. reflexivity.
Qed.

End CursorFacts.

(** C6.  A call of either step operation returns exactly one of the three
    results, and the result tells what happened.  It is
    [TreeCursorStepNone] when there is no such move (no first child; no
    next sibling), and the cursor is then as it was.  It is
    [TreeCursorStepHidden] when the cursor moved to that child (that
    sibling) and the node is hidden, [TreeCursorStepVisible] when it moved
    there and the node is visible: the node is then the current one, above
    the frames the move keeps.  No two of the three descriptions hold of
    the same call, and the three enumerators are distinct values. *)
Theorem step_result_exactly_one (c : Cursor.TreeCursor) :
  Cursor.exactly_one_outcome (Cursor.first_child c) (Cursor.stack c) c
    (Cursor.ts_tree_cursor_goto_first_child_internal c)
  /\ Cursor.exactly_one_outcome (Cursor.next_sibling c)
       (removelast (Cursor.stack c)) c
       (Cursor.ts_tree_cursor_goto_next_sibling_internal c)
  /\ (forall r r', Cursor.step_value r = Cursor.step_value r' -> r = r').
Proof.
  split; [|split].
  - unfold Cursor.ts_tree_cursor_goto_first_child_internal, Cursor.first_child.
    destruct (last (Cursor.stack c)) as [e|]; [|apply CursorFacts.unmoved].
    destruct (Cursor.children (Cursor.subtree e)) as [|child rest];
      [apply CursorFacts.unmoved|].
    apply (CursorFacts.moved c (Cursor.stack c)
             (Cursor.mkEntry child (Cursor.position e) 0 0
                (S (Cursor.descendant_index e)))).
    intros H. apply (f_equal length) in H. rewrite length_app in H. cbn in H. lia.
  - unfold Cursor.ts_tree_cursor_goto_next_sibling_internal, Cursor.next_sibling.
    destruct (last (Cursor.stack c)) as [e|] eqn:He; [|apply CursorFacts.unmoved].
    destruct (last (removelast (Cursor.stack c))) as [parent|];
      [|apply CursorFacts.unmoved].
    destruct (Cursor.children (Cursor.subtree parent) !! S (Cursor.child_index e))
      as [sibling|]; [|apply CursorFacts.unmoved].
    match goal with |- context [Cursor.mkEntry ?t ?pos ?ci ?sci ?di] =>
      apply (CursorFacts.moved c (removelast (Cursor.stack c))
               (Cursor.mkEntry t pos ci sci di)) end.
    rewrite (CursorFacts.last_removelast _ _ He) at 2.
    intros H. apply app_inj_tail in H as [_ H].
    apply (f_equal Cursor.child_index) in H. cbn in H. lia.
  - intros r r'. destruct r, r'; cbn; intros H; solve [reflexivity | discriminate].
Qed.

(** The three results on the sample tree: a descent from the root lands
    on its hidden first child; the advance from there lands on the visible
    second child, at byte 3; no advance is left from there, nor from the
    root, and the leaf has no child to descend to. *)
Lemma step_results_on_sample_tree :
  Cursor.ts_tree_cursor_goto_first_child_internal Cursor.at_root
  = (Cursor.TreeCursorStepHidden, Cursor.at_first)
  /\ Cursor.ts_tree_cursor_current_subtree Cursor.at_first
     = Some Cursor.hidden_node
  /\ Cursor.ts_tree_cursor_goto_next_sibling_internal Cursor.at_first
     = (Cursor.TreeCursorStepVisible, Cursor.at_second)
  /\ Cursor.ts_tree_cursor_current_subtree Cursor.at_second
     = Some (Cursor.leaf 4 5)
  /\ Cursor.position <$> last (Cursor.stack Cursor.at_second) = Some 3
  /\ Cursor.ts_tree_cursor_goto_next_sibling_internal Cursor.at_second
     = (Cursor.TreeCursorStepNone, Cursor.at_second)
  /\ Cursor.ts_tree_cursor_goto_first_child_internal Cursor.at_second
     = (Cursor.TreeCursorStepNone, Cursor.at_second)
  /\ Cursor.ts_tree_cursor_goto_next_sibling_internal Cursor.at_root
     = (Cursor.TreeCursorStepNone, Cursor.at_root).
Proof. repeat split. Qed.

(** ** The scanner calls *)

(** C7, refuted as stated: the header does not declare four
    scanner-instance calls. *)
Lemma not_four_scanner_calls : length WasmStore.scanner_calls ≠ 4%nat.
Proof. vm_compute. discriminate. Qed.

(** C7, as the header has it.  The store exposes five scanner-instance
    calls and no other: [create], which returns the instance handle,
    [destroy], [scan], which returns whether a token matched, [serialize],
    which fills a buffer and returns the byte count, and [deserialize],
    which takes a buffer and its length. *)
Theorem five_scanner_calls :
  WasmStore.operation <$> WasmStore.scanner_calls
    = ["create"; "destroy"; "scan"; "serialize"; "deserialize"]
  /\ length WasmStore.scanner_calls = 5%nat
  /\ WasmStore.returns "create" = Some WasmStore.Tuint32
  /\ WasmStore.params "create" = Some [WasmStore.store]
  /\ WasmStore.returns "destroy" = Some WasmStore.Tvoid
  /\ WasmStore.params "destroy" = Some [WasmStore.store; WasmStore.Tuint32]
  /\ WasmStore.returns "scan" = Some WasmStore.Tbool
  /\ WasmStore.params "scan"
      = Some [WasmStore.store; WasmStore.Tuint32; WasmStore.Tuint32]
  /\ WasmStore.returns "serialize" = Some WasmStore.Tuint32
  /\ WasmStore.params "serialize"
      = Some [WasmStore.store; WasmStore.Tuint32; WasmStore.Tptr false "char"]
  /\ WasmStore.returns "deserialize" = Some WasmStore.Tvoid
  /\ WasmStore.params "deserialize"
      = Some [WasmStore.store; WasmStore.Tuint32; WasmStore.Tptr true "char";
              WasmStore.Tunsigned].
Proof. repeat split; vm_compute; reflexivity. Qed.

(** ** The calls at concrete inputs *)

Ltac concrete :=
  vm_compute; repeat split; solve [reflexivity | discriminate | congruence].


(** C5, refuted as stated.  The heap is reset to 1000 in a module that
    never allocated, and in one whose single earlier block of 4194296 bytes
    made the memory grow from 1 page to 65; memory does not shrink, and
    [reset_heap] reads its size back as [heap_end].  [malloc 4200000] then
    needs growth past the ceiling in the first module and is refused; in
    the second it fits below [heap_end] and is served at 1004: the block
    allocated before the reset decides the later allocation. *)
Lemma prior_block_decides_later_malloc :
  exists sa sb sa',
    malloc 4194296 (module_at 0 1 128) = Ret 4 grown_module
    /\ reset_heap 1000 grown_module = Ret tt sa
    /\ reset_heap 1000 (module_at 0 1 128) = Ret tt sb
    /\ heap_start sa = 1000 /\ next sa = 1000
    /\ heap_start sb = 1000 /\ next sb = 1000
    /\ malloc 4200000 sa = Ret 1004 sa'
    /\ malloc 4200000 sb = Ret NULL sb
    /\ 1004 <> NULL.
Proof.
  do 3 eexists. split; [vm_compute; reflexivity|].
  split; [vm_compute; reflexivity|]. split; [vm_compute; reflexivity|].
  do 4 (split; [reflexivity|]).
  split; [vm_compute; reflexivity|]. split; [vm_compute; reflexivity|].
  discriminate.
Qed.

(** Runs with [realloc], in memories of the same size.  After the reset
    to 1000 the header of the earlier block, at 2004, lies in the payload
    of the first new block.  The refused [realloc] of that block copies its
    payload to address 0 on, which puts the old header over the new one at
    1000; [free] then takes the block for the last one, and the last
    [malloc] returns 1004 again.  In a module that never allocated the same
    calls end with a block at 3036. *)
Lemma prior_header_decides_later_malloc :
  mem_pages stale_module = mem_pages (fresh 1 64)
  /\ mem_max_pages stale_module = mem_max_pages (fresh 1 64)
  /\ run resize_older [] (state_of (reset_heap 1000 stale_module) stale_module)
     = ([1004; 3008; NULL; 1004],
        final_state resize_older
          (state_of (reset_heap 1000 stale_module) stale_module), false)
  /\ run resize_older [] (module_at 1000 1 64)
     = ([1004; 3008; NULL; 3036],
        final_state resize_older (module_at 1000 1 64), false).
Proof.
  split; [reflexivity|]. split; [reflexivity|].
  split; vm_compute; reflexivity.
Qed.

(** C8 at a failing input.  In a memory of one page with the heap at 0,
    [malloc 65532] fills the page exactly; [malloc 65536] then grows the
    memory by the one page [grow_heap] computes from the payload size alone,
    and returns 65540: the block ends 4 bytes past [heap_end], which is the
    end of the linear memory. *)
Theorem malloc_block_past_heap_end :
  exists s1 s2,
    malloc 65532 (module_at 0 1 64) = Ret 4 s1
    /\ next s1 = 65536 /\ heap_end s1 = 65536
    /\ malloc 65536 s1 = Ret 65540 s2
    /\ heap_end s2 = 131072 /\ mem_bytes s2 = 131072
    /\ heap_end s2 < 65540 + 65536.
Proof.
  do 2 eexists. split; [vm_compute; reflexivity|].
  split; [reflexivity|]. split; [reflexivity|].
  split; [vm_compute; reflexivity|]. concrete.
Qed.

(** C9 at a failing input.  [p = malloc 8] is the last block; a [realloc]
    of [p] to 5 MiB is refused, but [next] was moved back to the region of
    [p] before [malloc] was tried and stays there: the next [malloc] returns
    [p] again, on top of the block that is still live. *)
Theorem realloc_failure_releases_block :
  exists s1 s2 s3,
    malloc 8 (module_at 0 1 64) = Ret 4 s1 /\ next s1 = 12
    /\ realloc 4 (5 * 1024 * 1024) s1 = Ret NULL s2
    /\ next s2 = 0
    /\ malloc 8 s2 = Ret 4 s3.
Proof.
  do 3 eexists. split; [vm_compute; reflexivity|]. split; [reflexivity|].
  split; [vm_compute; reflexivity|]. split; [reflexivity|].
  vm_compute; reflexivity.
Qed.


(** C2, refuted as stated.  [p1 = malloc 8], then [p2 = malloc 0xFFFFFFFC],
    whose region wraps around and ends where it starts, so that [next] does
    not move.  [free p1], a block older than the most recent one, is then
    taken for the last block: [next] moves back from 1012 to 1000. *)
Theorem free_earlier_block_after_wrapping_malloc :
  exists s1 s2 s3,
    malloc 8 (module_at 1000 1 64) = Ret 1004 s1
    /\ malloc 0xFFFFFFFC s1 = Ret 1016 s2 /\ next s2 = 1012
    /\ free 1004 s2 = Ret tt s3
    /\ next s3 = 1000 /\ s3 ≠ s2.
Proof.
  do 3 eexists. split; [vm_compute; reflexivity|].
  split; [vm_compute; reflexivity|]. split; [reflexivity|].
  split; [vm_compute; reflexivity|]. split; [reflexivity|].
  intros H. apply (f_equal next) in H. vm_compute in H. discriminate.
Qed.

(** ** The theorems at sample inputs *)


(** C2 at a sample input: the second of two blocks is freed, or the
    first. *)
Lemma free_last_and_earlier_witness :
  (exists s2, free 1016 two_blocks = Ret tt s2
     /\ next s2 = region_for_ptr 1016 /\ next s2 = next one_block
     /\ (forall size' q s3, malloc size' s2 = Ret q s3 -> q ≠ NULL -> q = 1016))
  /\ free 1004 two_blocks = Ret tt two_blocks.
Proof.
  split.
  - apply (proj1 free_last_and_earlier 16 one_block 1016 two_blocks).
    + concrete.
    + vm_compute; reflexivity.
    + discriminate.
  - apply (proj2 free_last_and_earlier (module_at 1000 1 64) [1004; 1016]
             two_blocks 0%nat 1004).
    + concrete.
    + apply (alloc_cons _ 8 1004 one_block); [concrete | vm_compute; reflexivity | discriminate |].
      apply (alloc_cons _ 16 1016 two_blocks); [concrete | vm_compute; reflexivity | discriminate |].
      apply alloc_nil.
    + reflexivity.
    + cbn. lia.
Defined.



(** C5 at a sample input: the heap is reset to 1000 after two blocks were
    allocated, and compared with a module that never allocated. *)
Lemma reset_heap_fresh_start_witness :
  reset_heap 1000 two_blocks = Ret tt reset_two_blocks
  /\ heap_start reset_two_blocks = 1000 /\ next reset_two_blocks = 1000
  /\ region_for_ptr 1004 = 1000
  /\ [1004; 1016] = layout 1000 [8; 16]
  /\ exists s',
       run sample_frees [] (module_at 1000 1 64)
       = (returned sample_frees reset_two_blocks, s', false)
       /\ same_allocator (final_state sample_frees reset_two_blocks) s'.
Proof.
  assert (Ha : in_range 1000) by concrete.
  destruct (reset_heap_fresh_start 1000 two_blocks Ha)
    as (s0 & Hreset & Hs & Hn & Hfirst & Hlayout & Hindep).
  assert (E : s0 = reset_two_blocks).
  { apply (f_equal (fun r => state_of r two_blocks)) in Hreset.
    symmetry. exact Hreset. }
  subst s0.
  split; [exact Hreset|]. split; [exact Hs|]. split; [exact Hn|].
  split; [|split].
  - apply (Hfirst 8 1004 (state_of (malloc 8 reset_two_blocks) two_blocks));
      [vm_compute; reflexivity | discriminate].
  - apply (Hlayout [8; 16] [1004; 1016]
             (state_of (mallocs [8; 16] reset_two_blocks) two_blocks));
      [vm_compute; reflexivity |].
    repeat constructor; discriminate.
  - apply (Hindep (fresh 1 64) (module_at 1000 1 64) sample_frees);
      [reflexivity | reflexivity | reflexivity | reflexivity |].
    vm_compute; reflexivity.
Defined.


(** * Further properties of the allocator *)

(** ** Regions *)

(** X1.  Without wrap-around, [region_after] is the least multiple of 4 at
    or after the end of the payload: it leaves at most 3 padding bytes. *)
Theorem region_after_least_aligned (self len : Z) :
  0 <= self ->
  no_wrap self len ->
  aligned (region_after self len)
  /\ self + sizeof_Region + len <= region_after self len
  /\ region_after self len < self + sizeof_Region + len + 4
  /\ (forall m, aligned m -> self + sizeof_Region + len <= m ->
        region_after self len <= m).
Proof.
  intros Hs Hnw. pose proof Hnw as [Hl Hw].
  destruct (region_after_no_wrap _ _ Hs Hnw) as [Hlo Hhi].
  split; [apply region_after_aligned|]. split; [exact Hlo|]. split; [lia|].
  intros m Hm Hle. pose proof (region_after_aligned self len) as Ha.
  unfold aligned, sizeof_Region in *.
  Z.to_euclidean_division_equations. lia.
Qed.

Lemma region_after_least_aligned_witness :
  aligned (region_after 1000 5)
  /\ 1000 + sizeof_Region + 5 <= region_after 1000 5
  /\ region_after 1000 5 < 1000 + sizeof_Region + 5 + 4
  /\ (forall m, aligned m -> 1000 + sizeof_Region + 5 <= m ->
        region_after 1000 5 <= m).
Proof.
  apply (region_after_least_aligned 1000 5); concrete.
Defined.

Lemma region_ptr_data_back a : in_range a -> region_data (region_for_ptr a) = a.
Proof.
  intros Ha. unfold region_for_ptr, region_data.
  rewrite wrap_add_l.
  replace (a - sizeof_Region + sizeof_Region) with a by lia.
  apply wrap_small, Ha.
Qed.

(** X2.  The header and the payload of a region determine each other:
    [region_for_ptr] undoes [&region->data] and the other way round, for
    every 32-bit address (the subtraction and the addition wrap alike). *)
Theorem region_ptr_round_trip (a : Z) :
  in_range a ->
  region_for_ptr (region_data a) = a /\ region_data (region_for_ptr a) = a.
Proof.
  intros Ha. split; [apply region_for_ptr_data, Ha | apply region_ptr_data_back, Ha].
Qed.

Lemma region_ptr_round_trip_witness :
  region_for_ptr (region_data 2) = 2 /\ region_data (region_for_ptr 2) = 2.
Proof. apply (region_ptr_round_trip 2). concrete. Defined.

(** ** Growing the heap *)

Lemma new_page_count_ceil size :
  1 <= size < modulus ->
  new_page_count size = (size - 1) / PAGESIZE + 1
  /\ size <= new_page_count size * PAGESIZE
  /\ new_page_count size * PAGESIZE < size + PAGESIZE.
Proof.
  intros Hs. unfold new_page_count, PAGESIZE in *. rewrite modulus_eq in Hs.
  rewrite (wrap_small (size - 1)) by (unfold in_range; rewrite modulus_eq; lia).
  rewrite wrap_small.
  2:{ unfold in_range. rewrite modulus_eq.
      Z.to_euclidean_division_equations. lia. }
  split; [reflexivity|]. Z.to_euclidean_division_equations. lia.
Qed.

(** X3.  For a size of at least one byte, [grow_heap] asks for the number
    of pages that covers the size, rounded up: when it succeeds the memory
    is larger by at least [size] bytes and by less than [size] plus a page,
    and nothing else changes; when it fails the state is as before. *)
Theorem grow_heap_covers_size (size : Z) (s : State) (ok : bool) (s' : State) :
  wf s ->
  1 <= size < modulus ->
  grow_heap size s = Ret ok s' ->
  if ok
  then size <= mem_bytes s' - mem_bytes s < size + PAGESIZE
       /\ mem_pages s' <= mem_max_pages s
       /\ set_mem_pages (mem_pages s) s' = s
  else s' = s.
Proof.
  intros Hwf Hs. destruct (new_page_count_ceil size Hs) as (_ & Hlo & Hhi).
  unfold grow_heap, wasm_memory_grow. unfold_M.
  destruct (mem_pages s + new_page_count size <=? mem_max_pages s) eqn:Hg.
  - rewrite (wf_pages_not_max s Hwf). cbn [negb].
    intros H; inversion H; subst; clear H.
    apply Z.leb_le in Hg. unfold mem_bytes. simpl_state.
    split; [lia|]. split; [lia|]. destruct s; reflexivity.
  - rewrite Z.eqb_refl. cbn [negb]. intros H; inversion H; subst. reflexivity.
Qed.

Lemma grow_heap_covers_size_witness :
  70000 <= mem_bytes (state_of (grow_heap 70000 one_block) one_block)
           - mem_bytes one_block < 70000 + PAGESIZE
  /\ mem_pages (state_of (grow_heap 70000 one_block) one_block)
     <= mem_max_pages one_block
  /\ set_mem_pages (mem_pages one_block)
       (state_of (grow_heap 70000 one_block) one_block) = one_block.
Proof.
  apply (grow_heap_covers_size 70000 one_block true
           (state_of (grow_heap 70000 one_block) one_block)).
  - concrete.
  - concrete.
  - vm_compute; reflexivity.
Defined.

(** X4.  [malloc 0] never grows the heap.  For a size of 0, [grow_heap]
    computes [(0 - 1) / PAGESIZE + 1] in [size_t], which is 65536 pages, more
    than any memory that already has a page can grow by: when the header
    does not fit below [heap_end], [malloc 0] returns [NULL] and leaves the
    state as it is. *)
Theorem malloc_zero_never_grows (s : State) :
  wf s ->
  1 <= mem_pages s ->
  heap_end s < region_after (next s) 0 ->
  malloc 0 s = Ret NULL s.
Proof.
  intros Hwf Hpg Hend. rewrite malloc_eq by exact Hwf. cbn zeta.
  apply Z.ltb_lt in Hend. rewrite Hend.
  destruct (MAX_HEAP_SIZE <? ptrdiff _ _); [reflexivity|].
  assert (E : new_page_count 0 = 65536) by reflexivity. rewrite E.
  pose proof (wf_max _ Hwf).
  assert (Hg : (mem_pages s + 65536 <=? mem_max_pages s) = false)
    by (apply Z.leb_gt; lia).
  rewrite Hg. reflexivity.
Qed.

Lemma malloc_zero_never_grows_witness : malloc 0 full_page = Ret NULL full_page.
Proof. apply (malloc_zero_never_grows full_page); concrete. Defined.

(** ** What [malloc] leaves behind *)

(** X5.  A failed [malloc] is atomic: when it returns [NULL] the statics,
    the size of the memory and its bytes are all as before.  (The case of
    [next] at the last four bytes of the address space is set aside: the
    payload of a block served there would be at address 0.) *)
Theorem malloc_null_leaves_state (size : Z) (s s' : State) :
  wf s ->
  next s + sizeof_Region < modulus ->
  malloc size s = Ret NULL s' ->
  s' = s.
Proof.
  intros Hwf Hn Hm. destruct (malloc_cases _ _ _ _ Hwf Hm) as [[_ E]|Hs]; [exact E|].
  exfalso. pose proof (sv_ptr _ _ _ _ Hs) as Hp. pose proof (wf_next _ Hwf) as [H0 _].
  unfold region_data, NULL, sizeof_Region in *.
  rewrite wrap_small in Hp by (unfold in_range; lia). lia.
Qed.

Lemma malloc_null_leaves_state_witness :
  state_of (malloc (5 * 1024 * 1024) one_block) (fresh 0 0) = one_block.
Proof.
  apply (malloc_null_leaves_state (5 * 1024 * 1024) one_block); [concrete | concrete |].
  vm_compute; reflexivity.
Defined.

Lemma malloc_header size s p s' :
  wf s ->
  malloc size s = Ret p s' ->
  p ≠ NULL ->
  load32 (region_for_ptr p) s' = Ret (wrap size) s'
  /\ (forall a, a < region_for_ptr p \/ p <= a ->
        byte_at (mem s') a = byte_at (mem s) a)
  /\ heap_start s' = heap_start s.
Proof.
  intros Hwf Hm Hp.
  destruct (malloc_cases _ _ _ _ Hwf Hm) as [[E _]|Hs]; [contradiction|].
  destruct (served_ptr _ _ _ _ Hwf Hs Hp) as [Hr Hp4].
  split; [|split].
  - unfold load32. rewrite Hr, (sv_bounds _ _ _ _ Hs), (sv_mem _ _ _ _ Hs).
    rewrite read32_write32. reflexivity.
  - intros a Ha. rewrite (sv_mem _ _ _ _ Hs). apply byte_at_write32_other.
    rewrite Hr in Ha. unfold sizeof_Region in *. lia.
  - apply (sv_start _ _ _ _ Hs).
Qed.

(** X6.  A served [malloc] writes the four header bytes below the pointer
    it returns and nothing else: the header reads back as the size
    requested, every other byte of the memory, the new payload included, is
    as it was (the block is not cleared), and [heap_start] stays. *)
Theorem malloc_writes_header_only (size : Z) (s : State) (p : Z) (s' : State) :
  wf s ->
  malloc size s = Ret p s' ->
  p ≠ NULL ->
  load32 (region_for_ptr p) s' = Ret (wrap size) s'
  /\ (forall a, a < region_for_ptr p \/ p <= a ->
        byte_at (mem s') a = byte_at (mem s) a)
  /\ heap_start s' = heap_start s.
Proof. apply malloc_header. Qed.

Lemma malloc_writes_header_only_witness :
  load32 (region_for_ptr 1016) two_blocks = Ret (wrap 16) two_blocks
  /\ (forall a, a < region_for_ptr 1016 \/ 1016 <= a ->
        byte_at (mem two_blocks) a = byte_at (mem one_block) a)
  /\ heap_start two_blocks = heap_start one_block.
Proof.
  apply (malloc_writes_header_only 16 one_block 1016 two_blocks);
    [concrete | vm_compute; reflexivity | discriminate].
Defined.

(** ** Blocks do not overlap *)

Lemma alloc_trace_above s ps s' :
  wf s -> alloc_trace s ps s' ->
  Forall (fun q => next s <= region_for_ptr q
                   /\ region_for_ptr q + sizeof_Region = q) ps.
Proof.
  intros Hwf Ht. induction Ht as [s|s size p s1 ps s2 Hnw Hm Hp Ht IH].
  - constructor.
  - destruct (malloc_cases _ _ _ _ Hwf Hm) as [[E _]|Hs]; [contradiction|].
    destruct (served_ptr _ _ _ _ Hwf Hs Hp) as [Hr Hp4].
    destruct (served_frame _ _ _ _ Hwf Hnw Hs) as [Hup _].
    constructor; [rewrite Hr; lia|].
    apply (Forall_impl _ _ _ (IH (sv_wf _ _ _ _ Hs))).
    intros q [Hq1 Hq2]. unfold sizeof_Region in *. lia.
Qed.

(** X7.  Blocks served one after the other, for sizes that do not wrap
    around, do not overlap: every later block, header included, starts at
    or after the end of the payload of an earlier one, and the later calls
    leave the payload of the earlier block as it was. *)
Theorem later_blocks_lie_above (s : State) (size p : Z) (s1 : State)
    (ps : list Z) (s2 : State) :
  wf s ->
  no_wrap (next s) size ->
  malloc size s = Ret p s1 ->
  p ≠ NULL ->
  alloc_trace s1 ps s2 ->
  Forall (fun q => p + size <= region_for_ptr q
                   /\ region_for_ptr q + sizeof_Region = q) ps
  /\ (forall i, 0 <= i < size ->
        byte_at (mem s2) (p + i) = byte_at (mem s1) (p + i)).
Proof.
  intros Hwf Hnw Hm Hp Ht.
  destruct (malloc_cases _ _ _ _ Hwf Hm) as [[E _]|Hs]; [contradiction|].
  destruct (served_ptr _ _ _ _ Hwf Hs Hp) as [Hr Hp4].
  pose proof (wf_next _ Hwf) as [Hn0 _].
  destruct (region_after_no_wrap _ _ Hn0 Hnw) as [Hlo _].
  rewrite <- (sv_next _ _ _ _ Hs) in Hlo.
  pose proof (sv_wf _ _ _ _ Hs) as Hwf1.
  split.
  - apply (Forall_impl _ _ _ (alloc_trace_above _ _ _ Hwf1 Ht)).
    intros q [Hq1 Hq2]. split; [lia | exact Hq2].
  - intros i Hi.
    destruct (alloc_trace_frame _ _ _ Hwf1 Ht) as (_ & _ & _ & _ & Hbytes).
    apply Hbytes. lia.
Qed.

Lemma later_blocks_lie_above_witness :
  Forall (fun q => 1004 + 8 <= region_for_ptr q
                   /\ region_for_ptr q + sizeof_Region = q) [1016]
  /\ (forall i, 0 <= i < 8 ->
        byte_at (mem two_blocks) (1004 + i) = byte_at (mem one_block) (1004 + i)).
Proof.
  apply (later_blocks_lie_above (module_at 1000 1 64) 8 1004 one_block [1016] two_blocks).
  - concrete.
  - concrete.
  - vm_compute; reflexivity.
  - discriminate.
  - apply (alloc_cons _ 16 1016 two_blocks);
      [concrete | vm_compute; reflexivity | discriminate | apply alloc_nil].
Defined.

(** ** [free] *)

(** X8.  [free] is idempotent: calling it a second time on the same
    pointer, with no other call in between, leaves the state the first
    call returned, for every pointer and every state. *)
Theorem free_twice (ptr : Z) (s s' : State) :
  free ptr s = Ret tt s' ->
  free ptr s' = Ret tt s'.
Proof.
  rewrite !free_eq.
  destruct (ptr =? NULL) eqn:Hn; [intros H; inversion H; subst; reflexivity|].
  destruct (in_bounds (region_for_ptr ptr) 4 s) eqn:Hb; [|discriminate].
  destruct (region_after _ _ =? next s) eqn:He; intros H; inversion H; subst.
  - change (in_bounds (region_for_ptr ptr) 4 (set_next (region_for_ptr ptr) s))
      with (in_bounds (region_for_ptr ptr) 4 s).
    rewrite Hb. simpl_state.
    destruct (region_after _ _ =? region_for_ptr ptr); reflexivity.
  - rewrite Hb, He. reflexivity.
Qed.

Lemma free_twice_witness :
  free 1016 (state_of (free 1016 two_blocks) two_blocks)
  = Ret tt (state_of (free 1016 two_blocks) two_blocks).
Proof.
  apply (free_twice 1016 two_blocks). vm_compute; reflexivity.
Defined.

(** ** [calloc] *)

Lemma byte_at_fill_in dst c n m b :
  dst <= b < dst + n -> byte_at (fill dst c n m) b = c mod 256.
Proof.
  intros H. unfold fill.
  assert (Hin : b ∈ seqZ dst n) by (apply elem_of_seqZ; lia).
  induction (seqZ dst n) as [|x l IH]; [inversion Hin|]. cbn [foldr].
  destruct (Z.eq_dec x b) as [->|Hne].
  - rewrite byte_at_insert_eq. apply Z.mod_mod. lia.
  - rewrite byte_at_insert_ne by exact Hne. apply IH.
    apply elem_of_cons in Hin as [E|Hin]; [congruence | exact Hin].
Qed.

Lemma calloc_block count size s p s' :
  wf s ->
  calloc count size s = Ret p s' ->
  p ≠ NULL ->
  (forall i, 0 <= i < wrap (count * size) -> byte_at (mem s') (p + i) = 0)
  /\ load32 (region_for_ptr p) s' = Ret (wrap (count * size)) s'
  /\ (forall a, a < region_for_ptr p \/ p + wrap (count * size) <= a ->
        byte_at (mem s') a = byte_at (mem s) a).
Proof.
  intros Hwf. rewrite calloc_eq.
  destruct (malloc _ s) as [r s1|] eqn:Hm; [|discriminate].
  unfold memset. destruct (in_bounds r _ s1) eqn:Hb; [|discriminate].
  intros H Hp; inversion H; subst; clear H. simpl_state.
  destruct (malloc_header _ _ _ _ Hwf Hm Hp) as (Hload & Hother & _).
  rewrite (wrap_small (wrap (count * size))) in Hload by apply wrap_range.
  destruct (malloc_cases _ _ _ _ Hwf Hm) as [[E _]|Hs]; [contradiction|].
  destruct (served_ptr _ _ _ _ Hwf Hs Hp) as [Hr Hp4].
  pose proof (wrap_range (count * size)) as [Hn0 _].
  split; [|split].
  - intros i Hi. rewrite byte_at_fill_in by lia. reflexivity.
  - unfold load32 in *.
    change (in_bounds (region_for_ptr p) 4 (set_mem _ s1))
      with (in_bounds (region_for_ptr p) 4 s1).
    destruct (in_bounds (region_for_ptr p) 4 s1); [|discriminate].
    simpl_state. injection Hload as Hread. rewrite <- Hread. f_equal.
    apply read32_ext. intros i Hi.
    apply byte_at_fill_other. unfold sizeof_Region in *. lia.
  - intros a Ha. rewrite byte_at_fill_other.
    + apply Hother. unfold sizeof_Region in *. lia.
    + unfold sizeof_Region in *. lia.
Qed.

(** X9.  A block returned by [calloc] is cleared: its [count * size]
    payload bytes (the product taken in [size_t]) all read 0, its header
    holds that product, and the bytes outside the block are as they were. *)
Theorem calloc_clears_block (count size : Z) (s : State) (p : Z) (s' : State) :
  wf s ->
  calloc count size s = Ret p s' ->
  p ≠ NULL ->
  (forall i, 0 <= i < wrap (count * size) -> byte_at (mem s') (p + i) = 0)
  /\ load32 (region_for_ptr p) s' = Ret (wrap (count * size)) s'
  /\ (forall a, a < region_for_ptr p \/ p + wrap (count * size) <= a ->
        byte_at (mem s') a = byte_at (mem s) a).
Proof. apply calloc_block. Qed.

Lemma calloc_clears_block_witness :
  (forall i, 0 <= i < wrap (2 * 3) ->
     byte_at (mem (state_of (calloc 2 3 one_block) one_block)) (1016 + i) = 0)
  /\ load32 (region_for_ptr 1016) (state_of (calloc 2 3 one_block) one_block)
     = Ret (wrap (2 * 3)) (state_of (calloc 2 3 one_block) one_block)
  /\ (forall a, a < region_for_ptr 1016 \/ 1016 + wrap (2 * 3) <= a ->
        byte_at (mem (state_of (calloc 2 3 one_block) one_block)) a
        = byte_at (mem one_block) a).
Proof.
  apply (calloc_clears_block 2 3 one_block 1016);
    [concrete | vm_compute; reflexivity | discriminate].
Defined.

(** X10.  [calloc] does not detect an overflow of [count * size]: when the
    product does not fit [size_t], the block served is the one for the
    product modulo [2 ^ 32], shorter than what was asked for: the next
    region starts right after that many bytes. *)
Theorem calloc_product_wraps (count size : Z) (s : State) (p : Z) (s' : State) :
  wf s ->
  modulus <= count * size ->
  calloc count size s = Ret p s' ->
  p ≠ NULL ->
  wrap (count * size) < count * size
  /\ load32 (region_for_ptr p) s' = Ret (wrap (count * size)) s'
  /\ next s' = region_after (region_for_ptr p) (wrap (count * size)).
Proof.
  intros Hwf Hov Hc Hp.
  destruct (calloc_block _ _ _ _ _ Hwf Hc Hp) as (_ & Hload & _).
  pose proof (wrap_range (count * size)) as [_ Hlt].
  split; [lia|]. split; [exact Hload|].
  rewrite calloc_eq in Hc.
  destruct (malloc _ s) as [r s1|] eqn:Hm; [|discriminate].
  unfold memset in Hc. destruct (in_bounds r _ s1); [|discriminate].
  inversion Hc; subst; clear Hc. simpl_state.
  destruct (malloc_cases _ _ _ _ Hwf Hm) as [[E _]|Hs]; [contradiction|].
  destruct (served_ptr _ _ _ _ Hwf Hs Hp) as [Hr _].
  rewrite Hr. apply (sv_next _ _ _ _ Hs).
Qed.

Lemma calloc_product_wraps_witness :
  wrap (2147483648 * 2) < 2147483648 * 2
  /\ load32 (region_for_ptr 1016)
       (state_of (calloc 2147483648 2 one_block) one_block)
     = Ret (wrap (2147483648 * 2))
         (state_of (calloc 2147483648 2 one_block) one_block)
  /\ next (state_of (calloc 2147483648 2 one_block) one_block)
     = region_after (region_for_ptr 1016) (wrap (2147483648 * 2)).
Proof.
  apply (calloc_product_wraps 2147483648 2 one_block 1016);
    [concrete | concrete | vm_compute; reflexivity | discriminate].
Defined.

(** ** [realloc] *)

Lemma byte_at_copy_in dst src n m b :
  0 <= b < n -> byte_at (copy dst src n m) (dst + b) = byte_at m (src + b).
Proof.
  intros H. unfold copy.
  assert (Hin : b ∈ seqZ 0 n) by (apply elem_of_seqZ; lia).
  induction (seqZ 0 n) as [|x l IH]; [inversion Hin|]. cbn [foldr].
  destruct (Z.eq_dec x b) as [->|Hne].
  - rewrite byte_at_insert_eq. apply Z.mod_small, byte_at_range.
  - rewrite byte_at_insert_ne by lia. apply IH.
    apply elem_of_cons in Hin as [E|Hin]; [congruence | exact Hin].
Qed.

(** X11.  [realloc] of a block that is not the last one moves it: the new
    block is placed at [next], and the whole old payload, as many bytes as
    the old header says, whatever the new size is, is copied to it; the old
    block keeps its bytes.  The old block is taken to lie below [next]. *)
Theorem realloc_moves_content (ptr new_size : Z) (s : State) (q : Z) (s' : State) :
  wf s ->
  sizeof_Region <= ptr < modulus ->
  region_after (region_for_ptr ptr) (read32 (region_for_ptr ptr) (mem s)) ≠ next s ->
  ptr + read32 (region_for_ptr ptr) (mem s) <= next s ->
  realloc ptr new_size s = Ret q s' ->
  q ≠ NULL ->
  q = next s + sizeof_Region
  /\ (forall i, 0 <= i < read32 (region_for_ptr ptr) (mem s) ->
        byte_at (mem s') (q + i) = byte_at (mem s) (ptr + i))
  /\ (forall i, 0 <= i < read32 (region_for_ptr ptr) (mem s) ->
        byte_at (mem s') (ptr + i) = byte_at (mem s) (ptr + i)).
Proof.
  intros Hwf Hptr Hlast Hbelow. rewrite realloc_eq.
  assert (Hr : region_for_ptr ptr = ptr - sizeof_Region).
  { unfold region_for_ptr. apply wrap_small. unfold in_range, sizeof_Region in *. lia. }
  assert (Hnn : (ptr =? NULL) = false)
    by (apply Z.eqb_neq; unfold NULL, sizeof_Region in *; lia).
  apply Z.eqb_neq in Hlast. rewrite Hnn, Hlast.
  destruct (in_bounds _ _ s); [|discriminate].
  destruct (malloc new_size s) as [r s1|] eqn:Hm; [|discriminate].
  destruct (in_bounds _ _ s1); [|discriminate].
  unfold memcpy. destruct (in_bounds r _ s1 && _); [|discriminate].
  intros H Hq; inversion H; subst; clear H. simpl_state.
  destruct (malloc_cases _ _ _ _ Hwf Hm) as [[E _]|Hs]; [contradiction|].
  destruct (served_ptr _ _ _ _ Hwf Hs Hq) as [_ Hq4].
  unfold sizeof_Region in *.
  pose proof (read32_range (region_for_ptr ptr) (mem s)) as [Hold0 _].
  assert (Hsame : read32 (region_for_ptr ptr) (mem s1)
                  = read32 (region_for_ptr ptr) (mem s)).
  { rewrite (sv_mem _ _ _ _ Hs). apply read32_write32_other.
    unfold sizeof_Region in *. lia. }
  assert (Hdata : region_data (region_for_ptr ptr) = ptr).
  { apply region_ptr_data_back. unfold in_range. lia. }
  rewrite Hsame, Hdata.
  split; [exact Hq4|]. split.
  - intros i Hi. rewrite byte_at_copy_in by exact Hi.
    rewrite (sv_mem _ _ _ _ Hs). apply byte_at_write32_other. lia.
  - intros i Hi. rewrite byte_at_copy_other by (unfold sizeof_Region in *; lia).
    rewrite (sv_mem _ _ _ _ Hs). apply byte_at_write32_other. lia.
Qed.

Lemma realloc_moves_content_witness :
  value_of (realloc 1004 2 two_blocks) = next two_blocks + sizeof_Region
  /\ (forall i, 0 <= i < read32 (region_for_ptr 1004) (mem two_blocks) ->
        byte_at (mem (state_of (realloc 1004 2 two_blocks) two_blocks))
          (value_of (realloc 1004 2 two_blocks) + i)
        = byte_at (mem two_blocks) (1004 + i))
  /\ (forall i, 0 <= i < read32 (region_for_ptr 1004) (mem two_blocks) ->
        byte_at (mem (state_of (realloc 1004 2 two_blocks) two_blocks)) (1004 + i)
        = byte_at (mem two_blocks) (1004 + i)).
Proof.
  apply (realloc_moves_content 1004 2 two_blocks);
    [concrete | concrete | concrete | concrete | vm_compute; reflexivity | concrete].
Defined.

(** ** In place: [malloc], [realloc], [free] *)



(** ** Growth and the bounds of the heap *)

Lemma malloc_growth size s p s' :
  wf s ->
  malloc size s = Ret p s' ->
  mem_pages s' ≠ mem_pages s ->
  p = region_data (next s)
  /\ heap_end s < next s'
  /\ ptrdiff (next s') (heap_start s) <= MAX_HEAP_SIZE
  /\ mem_pages s' = mem_pages s + new_page_count size
  /\ heap_end s' = wrap (mem_bytes s').
Proof.
  intros Hwf. rewrite malloc_eq by exact Hwf. cbn zeta. unfold commit.
  destruct (heap_end s <? region_after (next s) size) eqn:Hhe.
  - destruct (MAX_HEAP_SIZE <? ptrdiff _ _) eqn:Hmax.
    { intros H Hne; inversion H; subst. contradiction. }
    destruct (mem_pages s + new_page_count size <=? mem_max_pages s).
    2:{ intros H Hne; inversion H; subst. contradiction. }
    destruct (in_bounds _ _ _); [|discriminate].
    intros H _; inversion H; subst; clear H. unfold grown, mem_bytes. simpl_state.
    apply Z.ltb_lt in Hhe. apply Z.ltb_ge in Hmax. auto.
  - destruct (in_bounds _ _ _); [|discriminate].
    intros H Hne; inversion H; subst. simpl_state. contradiction.
Qed.

(** X13.  For a request whose region stays inside the address space and
    ends less than [2 ^ 31] bytes after [heap_start], in a heap that starts
    at or below [next]: [malloc] grows the memory only for a request it
    serves, whose region ends past [heap_end] and at most [MAX_HEAP_SIZE]
    bytes after [heap_start]; it grows it by the pages [grow_heap] computes
    and by no more. *)
Theorem growth_within_ceiling (size : Z) (s : State) (p : Z) (s' : State) :
  wf s ->
  heap_start s <= next s ->
  no_wrap (next s) size ->
  region_end (next s) size - heap_start s < 2 ^ 31 ->
  malloc size s = Ret p s' ->
  mem_pages s' ≠ mem_pages s ->
  p = region_data (next s)
  /\ next s' = region_end (next s) size
  /\ heap_end s < region_end (next s) size
  /\ region_end (next s) size - heap_start s <= MAX_HEAP_SIZE
  /\ mem_pages s' = mem_pages s + new_page_count size
  /\ heap_end s' = wrap (mem_bytes s').
Proof.
  intros Hwf Hstart Hnw Hfar Hm Hgrow.
  destruct (malloc_growth _ _ _ _ Hwf Hm Hgrow) as (Hp & Hend & Hmax & Hpg & He).
  assert (Hnext : next s' = region_end (next s) size).
  { destruct (malloc_cases _ _ _ _ Hwf Hm) as [[_ ->]|Hs]; [congruence|].
    rewrite (sv_next _ _ _ _ Hs).
    apply region_after_region_end; [apply (wf_next _ Hwf) | exact Hnw]. }
  rewrite Hnext in Hend, Hmax.
  split; [exact Hp|]. split; [exact Hnext|]. split; [exact Hend|].
  split; [|split; [exact Hpg | exact He]].
  pose proof (wf_next _ Hwf) as [H0 _]. destruct Hnw as [Hl Hw].
  assert (Hle : next s <= region_end (next s) size).
  { unfold region_end, sizeof_Region. Z.to_euclidean_division_equations. lia. }
  unfold ptrdiff, signed in Hmax.
  rewrite wrap_small in Hmax by (unfold in_range; rewrite modulus_eq; lia).
  destruct (_ <? _) eqn:E in Hmax; [exact Hmax|].
  apply Z.ltb_ge in E. lia.
Qed.

Lemma growth_within_ceiling_witness :
  65540 = region_data (next full_page)
  /\ next (state_of (malloc 65536 full_page) full_page)
     = region_end (next full_page) 65536
  /\ heap_end full_page < region_end (next full_page) 65536
  /\ region_end (next full_page) 65536 - heap_start full_page <= MAX_HEAP_SIZE
  /\ mem_pages (state_of (malloc 65536 full_page) full_page)
     = mem_pages full_page + new_page_count 65536
  /\ heap_end (state_of (malloc 65536 full_page) full_page)
     = wrap (mem_bytes (state_of (malloc 65536 full_page) full_page)).
Proof.
  apply (growth_within_ceiling 65536 full_page 65540);
    [concrete | concrete | concrete | concrete | vm_compute; reflexivity
     | concrete].
Defined.

(** X14.  When at least 7 bytes are free below [heap_end], which is the
    end of a memory that cannot reach 4 GiB, and the size does not wrap
    around, the block [malloc] returns lies inside the heap: its payload
    ends at or before the new [next], which is at or below the new
    [heap_end], again the end of the memory. *)
Theorem block_within_heap (size : Z) (s : State) (p : Z) (s' : State) :
  wf s ->
  mem_max_pages s < 65536 ->
  heap_end s = mem_bytes s ->
  no_wrap (next s) size ->
  next s + 7 <= heap_end s ->
  malloc size s = Ret p s' ->
  p ≠ NULL ->
  p + size <= next s' /\ next s' <= heap_end s' /\ heap_end s' = mem_bytes s'.
Proof.
  intros Hwf Hmax Hend Hnw Hfree Hm Hp.
  destruct (malloc_cases _ _ _ _ Hwf Hm) as [[E _]|Hs]; [contradiction|].
  destruct (served_ptr _ _ _ _ Hwf Hs Hp) as [_ Hp4].
  pose proof (wf_next _ Hwf) as [Hn0 _].
  destruct (region_after_no_wrap _ _ Hn0 Hnw) as [Hlo Hhi].
  rewrite <- (sv_next _ _ _ _ Hs) in Hlo, Hhi.
  split; [lia|].
  destruct (Z.eq_dec (mem_pages s') (mem_pages s)) as [Hsame|Hgrow].
  - revert Hm. rewrite malloc_eq by exact Hwf. cbn zeta. unfold commit.
    destruct (heap_end s <? region_after (next s) size) eqn:Hhe.
    + destruct (MAX_HEAP_SIZE <? ptrdiff _ _).
      { intros H; inversion H; subst. congruence. }
      destruct (mem_pages s + new_page_count size <=? mem_max_pages s).
      2:{ intros H; inversion H; subst. congruence. }
      destruct (in_bounds _ _ _); [|discriminate].
      intros H; inversion H; subst; clear H. exfalso.
      unfold grown in Hsame. simpl_state.
      assert (1 <= new_page_count size); [|lia].
      unfold new_page_count, PAGESIZE.
      pose proof (wrap_range (size - 1)) as Hr. unfold in_range in Hr.
      rewrite modulus_eq in Hr. rewrite wrap_small.
      * Z.to_euclidean_division_equations. lia.
      * unfold in_range. rewrite modulus_eq.
        Z.to_euclidean_division_equations. lia.
    + destruct (in_bounds _ _ _); [|discriminate].
      intros H; inversion H; subst; clear H. unfold mem_bytes in *. simpl_state.
      apply Z.ltb_ge in Hhe. auto.
  - destruct (malloc_growth _ _ _ _ Hwf Hm Hgrow) as (_ & _ & _ & Hpg & He).
    pose proof (sv_wf _ _ _ _ Hs) as Hwf'.
    pose proof (wf_pages _ Hwf') as [Hp0 Hpmax].
    rewrite (sv_max _ _ _ _ Hs) in Hpmax.
    assert (Hbytes : wrap (mem_bytes s') = mem_bytes s').
    { apply wrap_small. unfold in_range, mem_bytes, PAGESIZE.
      rewrite modulus_eq. lia. }
    rewrite Hbytes in He. rewrite He. split; [|reflexivity].
    destruct Hnw as [Hsz Hw].
    destruct (Z.eq_dec size 0) as [->|Hnz].
    + exfalso. assert (E : new_page_count 0 = 65536) by reflexivity.
      rewrite E in Hpg. pose proof (wf_pages _ Hwf). lia.
    + assert (Hsize : 1 <= size < modulus).
      { unfold sizeof_Region in *. lia. }
      destruct (new_page_count_ceil size Hsize) as (_ & Hcov & _).
      unfold mem_bytes in *. unfold sizeof_Region in *. rewrite Hpg. lia.
Qed.

Lemma block_within_heap_witness :
  1016 + 70000 <= next (state_of (malloc 70000 one_block) one_block)
  /\ next (state_of (malloc 70000 one_block) one_block)
     <= heap_end (state_of (malloc 70000 one_block) one_block)
  /\ heap_end (state_of (malloc 70000 one_block) one_block)
     = mem_bytes (state_of (malloc 70000 one_block) one_block).
Proof.
  apply (block_within_heap 70000 one_block 1016);
    [concrete | concrete | concrete | concrete | concrete
     | vm_compute; reflexivity | discriminate].
Defined.

(** X15.  [malloc] does not trap when the four bytes at [next] lie in the
    memory: it returns, with [NULL] or with a block. *)
Theorem malloc_returns (size : Z) (s : State) :
  wf s ->
  in_bounds (next s) 4 s = true ->
  exists p s', malloc size s = Ret p s'
    /\ ((p = NULL /\ s' = s) \/ served size s p s').
Proof.
  intros Hwf Hb.
  assert (Hret : exists p s', malloc size s = Ret p s').
  { rewrite malloc_eq by exact Hwf. cbn zeta. unfold commit.
    change (next (grown size s)) with (next s).
    rewrite (in_bounds_grown _ size _ Hwf Hb), Hb.
    repeat match goal with
           | |- context [if ?c then _ else _] => destruct c
           end; eauto. }
  destruct Hret as (p & s' & Hm). exists p, s'. split; [exact Hm|].
  apply (malloc_cases _ _ _ _ Hwf Hm).
Qed.

Lemma malloc_returns_witness :
  exists p s', malloc 70000 one_block = Ret p s'
    /\ ((p = NULL /\ s' = one_block) \/ served 70000 one_block p s').
Proof. apply (malloc_returns 70000 one_block); concrete. Defined.

(** ** Invariants of a run *)








(** X17.  In a memory of 65536 pages, the whole address space, the size in
    bytes does not fit a pointer: after [reset_heap], [heap_end] reads
    [NULL], and [malloc] refuses every request but one whose region would
    end exactly at address 0. *)
Theorem full_memory_refuses (a : Z) (pre s0 : State) :
  wf pre ->
  in_range a ->
  mem_pages pre = 65536 ->
  reset_heap a pre = Ret tt s0 ->
  heap_end s0 = NULL
  /\ (forall size, region_after a size ≠ NULL -> malloc size s0 = Ret NULL s0).
Proof.
  intros Hwf Ha Hpg Hreset.
  pose proof (wf_reset a pre Ha Hwf) as Hwf0. rewrite Hreset in Hwf0. cbn in Hwf0.
  rewrite reset_heap_eq in Hreset. inversion Hreset; subst s0; clear Hreset.
  simpl_state. rewrite Hpg in Hwf0 |- *. split; [reflexivity|].
  intros size Hne. rewrite malloc_eq by exact Hwf0. cbn zeta. simpl_state.
  rewrite Hpg. change (wrap (65536 * PAGESIZE)) with 0.
  pose proof (region_after_range a size) as [H0 _].
  assert (Hlt : (0 <? region_after a size) = true)
    by (apply Z.ltb_lt; unfold NULL in *; lia).
  rewrite Hlt. destruct (MAX_HEAP_SIZE <? ptrdiff _ _); [reflexivity|].
  assert (Hnpc : 1 <= new_page_count size).
  { unfold new_page_count, PAGESIZE.
    pose proof (wrap_range (size - 1)) as Hr. unfold in_range in Hr.
    rewrite modulus_eq in Hr. rewrite wrap_small.
    - Z.to_euclidean_division_equations. lia.
    - unfold in_range. rewrite modulus_eq.
      Z.to_euclidean_division_equations. lia. }
  pose proof (wf_max _ Hwf).
  assert (Hg : (65536 + new_page_count size <=? mem_max_pages pre) = false)
    by (apply Z.leb_gt; lia).
  rewrite Hg. reflexivity.
Qed.

Lemma full_memory_refuses_witness :
  heap_end (module_at 1000 65536 65536) = NULL
  /\ (forall size, region_after 1000 size ≠ NULL ->
        malloc size (module_at 1000 65536 65536)
        = Ret NULL (module_at 1000 65536 65536)).
Proof.
  apply (full_memory_refuses 1000 (fresh 65536 65536));
    [concrete | concrete | reflexivity | reflexivity].
Defined.

(** ** Freeing in allocation order *)

Lemma alloc_trace_last front : forall s q s1,
  wf s -> alloc_trace s (front ++ [q]) s1 ->
  exists sm size,
    wf sm /\ alloc_trace s front sm /\ malloc size sm = Ret q s1 /\ q ≠ NULL.
Proof.
  induction front as [|x front IH]; intros s q s1 Hwf Ht; cbn [app] in Ht.
  - inversion Ht as [|? size ? sa ? ? Hnw Hm Hq Htail]; subst.
    inversion Htail; subst.
    exists s, size. split; [exact Hwf|]. split; [constructor|]. auto.
  - inversion Ht as [|? size ? sa ? ? Hnw Hm Hx Htail]; subst.
    destruct (IH _ _ _ (malloc_wf _ _ _ _ Hwf Hm) Htail) as (sm & sz & W & T & M & Q).
    exists sm, sz. split; [exact W|]. split; [|auto].
    apply (alloc_cons _ size x sa); assumption.
Qed.

Lemma frees_noop l s :
  Forall (fun p => free p s = Ret tt s) l -> frees l s = Ret tt s.
Proof.
  induction 1 as [|p l Hp _ IH]; cbn [frees]; unfold_M; [reflexivity|].
  rewrite Hp. exact IH.
Qed.

(** X18.  Freeing the blocks of a run in the order they were allocated
    recovers the last block only: the frees of the earlier blocks do
    nothing, and [next] ends at the region of the last block, above where
    it started when there was an earlier block. *)
Theorem frees_in_allocation_order (s : State) (front : list Z) (q : Z)
    (s1 : State) :
  wf s ->
  alloc_trace s (front ++ [q]) s1 ->
  frees (front ++ [q]) s1 = Ret tt (set_next (region_for_ptr q) s1)
  /\ (front ≠ [] -> next s < region_for_ptr q).
Proof.
  intros Hwf Ht.
  destruct (alloc_trace_last _ _ _ _ Hwf Ht) as (sm & size & W & T & M & Q).
  destruct (malloc_cases _ _ _ _ W M) as [[E _]|Hs]; [contradiction|].
  destruct (served_ptr _ _ _ _ W Hs Q) as [Hr _].
  split.
  - rewrite frees_app, frees_noop.
    + cbn [frees]. unfold_M.
      destruct (free_last_rewinds _ _ _ _ W M Q) as [Hf _].
      rewrite Hf, Hr. reflexivity.
    + apply Forall_lookup. intros i p Hi.
      apply (free_earlier_noop s (front ++ [q]) s1 i p Hwf Ht).
      * apply lookup_app_l_Some. exact Hi.
      * rewrite length_app. cbn. apply lookup_lt_Some in Hi. lia.
  - intros Hne. rewrite Hr.
    destruct (alloc_trace_frame _ _ _ Hwf T) as (_ & _ & _ & Hstrict & _).
    apply Hstrict, Hne.
Qed.

Lemma frees_in_allocation_order_witness :
  frees ([1004] ++ [1016]) two_blocks
  = Ret tt (set_next (region_for_ptr 1016) two_blocks)
  /\ ([1004] ≠ [] -> next (module_at 1000 1 64) < region_for_ptr 1016).
Proof.
  apply (frees_in_allocation_order (module_at 1000 1 64) [1004] 1016 two_blocks).
  - concrete.
  - apply (alloc_cons _ 8 1004 one_block); [concrete | vm_compute; reflexivity | discriminate |].
    apply (alloc_cons _ 16 1016 two_blocks); [concrete | vm_compute; reflexivity | discriminate |].
    apply alloc_nil.
Defined.

(** ** A refused [realloc] of an earlier block *)


